(** * Behaviour.py: LIF populations, synapses, weight clipping, KWTA and
      the stimulus generator

    A shallow embedding of [src/Learning/STDP/Behaviour.py].

    Modelling conventions.
    - A torch tensor of reals is a [list Q] (a matrix is a list of rows);
      arithmetic is exact rational arithmetic, comparisons are by value.
      Rounding, infinities and NaN are outside the model, and so is the
      division by a zero [tau] (which [Qdiv] sends to [0]).
    - A boolean tensor is a [list bool]; where the source multiplies by a
      boolean tensor, the boolean is cast to [0] or [1] by [b2q].
    - The vectors of one population are allocated by the host
      ([neurons.vector]) with the population's size, so elementwise
      operations meet operands of one length; [map2] stops at the shorter
      operand where the lengths differ.
    - A Python exception is a value of [exn], carried by [result]. *)

From Stdlib Require Import List Bool Arith ZArith QArith Qminmax Lia Lqa.
From Stdlib Require Import ZifyBool Permutation.
Import ListNotations.

Open Scope Q_scope.

(** ** Exceptions and results *)

Inductive exn : Type :=
| AssertionError
| IndexError
| TypeError
| RuntimeError.

Inductive result (A : Type) : Type :=
| Ok (a : A)
| Raise (e : exn).

Arguments Ok {A} a.
Arguments Raise {A} e.

Definition bind {A B : Type} (r : result A) (k : A -> result B) : result B :=
  match r with
  | Ok a => k a
  | Raise e => Raise e
  end.

Notation "x <- r ;; k" := (bind r (fun x => k))
  (at level 61, r at next level, right associativity).

(** ** Tensors *)

Definition vec := list Q.
Definition bvec := list bool.
Definition matrix := list vec.

Definition b2q (b : bool) : Q := if b then 1 else 0.

(** [x < y] as a boolean, by value. *)
Definition Qlt_bool (x y : Q) : bool := negb (Qle_bool y x).

Fixpoint map2 {A B C : Type} (f : A -> B -> C) (l : list A) (m : list B) : list C :=
  match l, m with
  | a :: l', b :: m' => f a b :: map2 f l' m'
  | _, _ => []
  end.

(** [t >= c], elementwise. *)
Definition vge (t : vec) (c : Q) : bvec := map (fun x => Qle_bool c x) t.

(** [t[mask] = c]: masked assignment of a scalar. *)
Definition masked_fill (t : vec) (mask : bvec) (c : Q) : vec :=
  map2 (fun x (b : bool) => if b then c else x) t mask.

Definition vadd (s t : vec) : vec := map2 Qplus s t.
Definition vsub (s t : vec) : vec := map2 Qminus s t.

(** [torch.sum] of a boolean tensor: how many entries are set. *)
Definition bsum (m : bvec) : nat := length (filter (fun b : bool => b) m).

Definition zeros (n : nat) : vec := repeat 0 n.
Definition ones (n : nat) : vec := repeat 1 n.


(** [torch.matmul] of a matrix and a vector: one dot product per row. *)
Definition dot (r s : vec) : Q := fold_right Qplus 0 (map2 Qmult r s).
Definition matmul (W : matrix) (s : vec) : vec := map (fun r => dot r s) W.

(** [t[z]] on a Python sequence: a negative index counts from the end. *)
Definition py_index {A : Type} (t : list A) (z : Z) : result A :=
  let len := Z.of_nat (length t) in
  let pos := if (z <? 0)%Z then (len + z)%Z else z in
  if ((0 <=? pos) && (pos <? len))%Z%bool then
    match nth_error t (Z.to_nat pos) with
    | Some a => Ok a
    | None => Raise IndexError
    end
  else Raise IndexError.

(** [torch.topk(t, k)], the values only: the [k] largest entries, largest
    first. It raises when [k] is not within the length of [t]. *)
Fixpoint insert_desc (x : Q) (l : vec) : vec :=
  match l with
  | [] => [x]
  | y :: l' => if Qle_bool y x then x :: l else y :: insert_desc x l'
  end.

Definition sort_desc (l : vec) : vec := fold_right insert_desc [] l.

Definition topk (t : vec) (k : Z) : result vec :=
  if ((0 <=? k) && (k <=? Z.of_nat (length t)))%Z%bool
  then Ok (firstn (Z.to_nat k) (sort_desc t))
  else Raise RuntimeError.

(** [t.min()]: the least entry; it raises on an empty tensor. *)
Definition vmin (t : vec) : result Q :=
  match t with
  | [] => Raise RuntimeError
  | x :: t' => Ok (fold_left Qmin t' x)
  end.

(** ** Neuron populations

    The fields that the behaviours read and write on a [NeuronGroup]:
    its size, the state vectors and, after [set_parameters_as_variables],
    the scalar parameters of the neuron model. *)

Record NeuronGroup : Type := mkNeuronGroup {
  ng_size : nat;
  ng_v : vec;
  ng_spikes : bvec;
  ng_I : vec;
  ng_trace : vec;
  ng_v_rest : Q;
  ng_v_reset : Q;
  ng_tau : Q;
  ng_R : Q;
  ng_threshold : Q
}.

Definition set_v (n : NeuronGroup) (t : vec) : NeuronGroup :=
  mkNeuronGroup (ng_size n) t (ng_spikes n) (ng_I n) (ng_trace n)
    (ng_v_rest n) (ng_v_reset n) (ng_tau n) (ng_R n) (ng_threshold n).

Definition set_spikes (n : NeuronGroup) (s : bvec) : NeuronGroup :=
  mkNeuronGroup (ng_size n) (ng_v n) s (ng_I n) (ng_trace n)
    (ng_v_rest n) (ng_v_reset n) (ng_tau n) (ng_R n) (ng_threshold n).

Definition set_I (n : NeuronGroup) (c : vec) : NeuronGroup :=
  mkNeuronGroup (ng_size n) (ng_v n) (ng_spikes n) c (ng_trace n)
    (ng_v_rest n) (ng_v_reset n) (ng_tau n) (ng_R n) (ng_threshold n).

(** The parameter dictionaries [EXC_CONFIG] and [INH_CONFIG]. *)

Record lif_config : Type := mkConfig {
  cfg_v_reset : Q;
  cfg_v_rest : Q;
  cfg_tau : Q;
  cfg_R : Q;
  cfg_threshold : Q
}.

Definition EXC_CONFIG : lif_config := mkConfig (-65) (-65) 10 2 (-55).
Definition INH_CONFIG : lif_config := mkConfig (-65) (-65) 10 2 (-55).

Definition EXCITATORY_NEURON_SIZE : nat := 100.
Definition INHIBITORY_NEURON_SIZE : nat := Nat.div EXCITATORY_NEURON_SIZE 4.
Definition ITER : nat := 4000.

(** A population as the host creates it, before any behaviour has run. *)
Definition new_group (size : nat) : NeuronGroup :=
  mkNeuronGroup size [] [] [] [] 0 0 0 0 0.

(** ** LIF *)

Module LIF.

(** The parameters of [c] become variables of the population; [v] is
    [ones * v_rest] and [spikes] is all zeros. *)
Definition initialize (c : lif_config) (n : NeuronGroup) : NeuronGroup :=
  mkNeuronGroup (ng_size n)
                (map (fun o => o * cfg_v_rest c) (ones (ng_size n)))
                (repeat false (ng_size n))
                (ng_I n) (ng_trace n)
                (cfg_v_rest c) (cfg_v_reset c) (cfg_tau c) (cfg_R c)
                (cfg_threshold c).

Definition _dv_dt (n : NeuronGroup) : vec :=
  let delta_v := map (fun x => ng_v_rest n - x) (ng_v n) in
  let input_current := map (fun c => ng_R n * c) (ng_I n) in
  vadd delta_v input_current.

Definition _fire (n : NeuronGroup) : NeuronGroup :=
  let n1 := set_spikes n (vge (ng_v n) (ng_threshold n)) in
  set_v n1 (masked_fill (ng_v n1) (ng_spikes n1) (ng_v_reset n1)).

Definition forward (n : NeuronGroup) : NeuronGroup :=
  let n1 := _fire n in
  set_v n1 (vadd (ng_v n1) (map (fun d => d / ng_tau n1) (_dv_dt n1))).

End LIF.

(** ** Synapse groups and the synaptic current *)

Inductive channel : Type := GLUTAMATE | GABA.

(** A synapse group: the indices of its source and destination in the
    network's list of populations, its tag and its weight matrix (one row
    per destination neuron). *)
Record SynapseGroup : Type := mkSynapseGroup {
  sg_src : nat;
  sg_dst : nat;
  sg_tag : channel;
  sg_W : matrix
}.

Definition channel_eqb (a b : channel) : bool :=
  match a, b with
  | GLUTAMATE, GLUTAMATE | GABA, GABA => true
  | _, _ => false
  end.

(** [neurons.afferent_synapses[tag]] for the population at index [j]. *)
Definition afferent_synapses (syns : list SynapseGroup) (j : nat) (tag : channel)
  : list SynapseGroup :=
  filter (fun s => Nat.eqb (sg_dst s) j && channel_eqb (sg_tag s) tag) syns.

Module Synapse.

(** [pops] is the store of populations, in which [synapse.src] is looked
    up: the spikes read are those the source holds right now. *)
Definition _get_presynaptic_inputs (pops : list NeuronGroup) (s : SynapseGroup)
  : result vec :=
  match nth_error pops (sg_src s) with
  | Some src => Ok (matmul (sg_W s) (map b2q (ng_spikes src)))
  | None => Raise IndexError
  end.

Fixpoint accumulate (op : vec -> vec -> vec) (pops : list NeuronGroup)
         (ss : list SynapseGroup) (n : NeuronGroup) : result NeuronGroup :=
  match ss with
  | [] => Ok n
  | s :: ss' =>
      p <- _get_presynaptic_inputs pops s ;;
      accumulate op pops ss' (set_I n (op (ng_I n) p))
  end.

Definition forward (pops : list NeuronGroup) (syns : list SynapseGroup)
           (j : nat) (n : NeuronGroup) : result NeuronGroup :=
  n1 <- accumulate vadd pops (afferent_synapses syns j GLUTAMATE) n ;;
  accumulate vsub pops (afferent_synapses syns j GABA) n1.

End Synapse.

(** ** Input *)

Module Input.

Definition _reset_inputs (n : NeuronGroup) : NeuronGroup :=
  set_I n (zeros (ng_size n)).

(** [initialize] keeps the parameter [I] (default [None]) as it is given
    and resets the current. *)
Definition initialize (input : option matrix) (n : NeuronGroup)
  : result (option matrix * NeuronGroup) :=
  Ok (input, _reset_inputs n).

(** [iteration] is the population's iteration counter, [1] at the first
    step. A row is added to the current when it has the population's
    size, or one entry (which is broadcast). *)
Definition forward (input : option matrix) (iteration : nat) (n : NeuronGroup)
  : result NeuronGroup :=
  let n1 := _reset_inputs n in
  match input with
  | None => Raise TypeError
  | Some w =>
      row <- py_index w (Z.of_nat iteration - 1) ;;
      if Nat.eqb (length row) (length (ng_I n1)) then
        Ok (set_I n1 (vadd (ng_I n1) row))
      else match row with
           | [c] => Ok (set_I n1 (map (fun x => x + c) (ng_I n1)))
           | _ => Raise RuntimeError
           end
  end.

End Input.

(** ** WeightClip *)

Module WeightClip.

Record t : Type := mk { w_min : Q; w_max : Q }.

Definition default (d : Q) (o : option Q) : Q :=
  match o with Some x => x | None => d end.

(** The parameters default to [0] and [1]; the assertion is
    [0 <= w_min < w_max]. *)
Definition initialize (lo hi : option Q) : result t :=
  let c := mk (default 0 lo) (default 1 hi) in
  if Qle_bool 0 (w_min c) && Qlt_bool (w_min c) (w_max c)
  then Ok c else Raise AssertionError.

(** [torch.clip(x, lo, hi)] is [min(max(x, lo), hi)]. *)
Definition clip (lo hi x : Q) : Q := Qmin (Qmax x lo) hi.

Definition forward (c : t) (W : matrix) : matrix :=
  map (map (clip (w_min c) (w_max c))) W.

End WeightClip.

(** ** KWTA *)

Module KWTA.

(** [initialize] stores the parameter [k] (default [None]) unchecked. *)
Definition initialize (k : option Z) : result (option Z) := Ok k.

Definition will_spike (n : NeuronGroup) : bvec :=
  vge (ng_v n) (ng_threshold n).

(** [will_spike * (v - threshold)] *)
Definition will_spike_v (n : NeuronGroup) : vec :=
  map2 (fun (b : bool) x => b2q b * x) (will_spike n)
       (map (fun x => x - ng_threshold n) (ng_v n)).

Definition min_value (k : Z) (n : NeuronGroup) : result Q :=
  k_values <- topk (will_spike_v n) k ;;
  vmin k_values.

Definition forward (k : option Z) (n : NeuronGroup) : result NeuronGroup :=
  match k with
  | None => Raise TypeError
  | Some k =>
      if (Z.of_nat (bsum (will_spike n)) <=? k)%Z then Ok n
      else
        m <- min_value k n ;;
        Ok (set_v n (masked_fill (ng_v n)
                       (map (fun x => Qlt_bool x m) (will_spike_v n))
                       (ng_v_reset n)))
  end.

End KWTA.

(** ** InputGenerator

    torch's global random generator is an explicit state. Its interface:
    seeding, and one draw of [torch.rand] and of [torch.normal]. A tensor
    of a given shape is drawn entry by entry, row after row. *)

Class TorchRng : Type := {
  rng_state : Type;
  manual_seed : Z -> rng_state;
  rand1 : rng_state -> Q * rng_state;
  normal1 : Q -> Q -> rng_state -> Q * rng_state
}.

Record InputGenerator : Type := mkInputGenerator {
  ig_mean : Q;
  ig_std : Q;
  ig_threshold : Q;
  ig_signals : option (matrix * matrix);
  ig_random_signal_no : vec;
  ig_signal_orders : list bool
}.

Definition zeros2 (duration population_size : nat) : matrix :=
  repeat (zeros population_size) duration.

(** [x[start:stop] = block], where [block] has [stop - start] rows. *)
Definition assign_rows {A : Type} (x : list A) (start stop : nat) (block : list A)
  : list A :=
  firstn start x ++ block ++ skipn stop x.

(** [t.repeat(times)] along the first dimension. *)
Definition tile {A : Type} (t : list A) (times : nat) : list A :=
  concat (repeat t times).

Section Generator.

Context {G : TorchRng}.

Fixpoint draw_row (draw : rng_state -> Q * rng_state) (n : nat) (g : rng_state)
  : vec * rng_state :=
  match n with
  | O => ([], g)
  | S n' =>
      let (x, g1) := draw g in
      let (r, g2) := draw_row draw n' g1 in
      (x :: r, g2)
  end.

Fixpoint draw_matrix (draw : rng_state -> Q * rng_state) (d n : nat)
         (g : rng_state) : matrix * rng_state :=
  match d with
  | O => ([], g)
  | S d' =>
      let (r, g1) := draw_row draw n g in
      let (m, g2) := draw_matrix draw d' n g1 in
      (r :: m, g2)
  end.

(** [torch.rand(size=(d, n))] and [torch.normal(mean, std, size=(d, n))] *)
Definition rand (d n : nat) (g : rng_state) : matrix * rng_state :=
  draw_matrix rand1 d n g.

Definition normal (mean std : Q) (d n : nat) (g : rng_state)
  : matrix * rng_state :=
  draw_matrix (normal1 mean std) d n g.

Definition __init__ (mu std threshold : Q) : InputGenerator :=
  mkInputGenerator mu std threshold None [] [].

Definition get_random_input (self : InputGenerator)
           (population_size duration : nat) (seed : Z) : matrix * rng_state :=
  let g := manual_seed seed in
  let (u, g1) := rand duration population_size g in
  let enable_input := map (map (fun x => Qlt_bool (ig_threshold self) x)) u in
  let (random_input, g2) :=
    normal (ig_mean self) (ig_std self) duration population_size g1 in
  (map2 (map2 (fun x (b : bool) => x * b2q b)) random_input enable_input, g2).

Definition get_zero_input (population_size duration : nat) : matrix :=
  zeros2 duration population_size.

Definition set_signals (self : InputGenerator)
           (signal_duration population_size : nat) (seed : Z)
  : InputGenerator * rng_state :=
  let g := manual_seed seed in
  let (u, g1) := rand signal_duration population_size g in
  let enable_input := map (map (fun x => Qlt_bool (ig_threshold self) x)) u in
  let (random_input, g2) :=
    normal (ig_mean self) (ig_std self) signal_duration population_size g1 in
  let s0 := map2 (map2 (fun (b : bool) x => b2q b * x)) enable_input random_input in
  let s1 :=
    map2 (map2 (fun (b : bool) x => b2q (negb b) * x)) enable_input random_input in
  (mkInputGenerator (ig_mean self) (ig_std self) (ig_threshold self)
     (Some (s0, s1)) (ig_random_signal_no self) (ig_signal_orders self), g2).

Definition get_signal_over_iter (signal : matrix)
           (signal_repeat rest_duration population_size : nat) : matrix :=
  let rest_signal := zeros2 rest_duration population_size in
  let signal_with_rest := signal ++ rest_signal in
  tile signal_with_rest signal_repeat.

Definition get_signal_no_over_iter (signal_no : bool)
           (signal_duration signal_repeat rest_duration : nat) : vec :=
  let rest_signal_no := map (fun o => o * -1) (ones rest_duration) in
  let signal_no' := map (fun o => o * b2q signal_no) (ones signal_duration) in
  let signal_with_rest_no := signal_no' ++ rest_signal_no in
  tile signal_with_rest_no signal_repeat ++ rest_signal_no.

(** [self.signals[signal_no]]: [False] and [True] index as [0] and [1]. *)
Definition signals_index (signals : option (matrix * matrix)) (signal_no : bool)
  : result matrix :=
  match signals with
  | None => Raise TypeError
  | Some (s0, s1) => Ok (if signal_no then s1 else s0)
  end.

(** The state of the loop of [get_random_signals]. *)
Record loop_state : Type := mkLoop {
  ls_rng : rng_state;
  ls_input : matrix;
  ls_self : InputGenerator
}.

Definition loop_body (signal_duration signal_repeat rest_duration
                      population_size iter_duration : nat)
           (st : loop_state) (i : nat) : result loop_state :=
  let self := ls_self st in
  let start_time := (i * iter_duration)%nat in
  let end_time := (start_time + iter_duration)%nat in
  let (u, g1) := rand1 (ls_rng st) in
  let signal_no := Qlt_bool (1 # 2) u in
  signal <- signals_index (ig_signals self) signal_no ;;
  let iter_signal :=
    get_signal_over_iter signal signal_repeat rest_duration population_size in
  let iter_rest := zeros2 rest_duration population_size in
  let input' :=
    assign_rows (ls_input st) start_time end_time (iter_signal ++ iter_rest) in
  let iter_signal_no :=
    get_signal_no_over_iter signal_no signal_duration signal_repeat rest_duration in
  let no' :=
    assign_rows (ig_random_signal_no self) start_time end_time iter_signal_no in
  Ok (mkLoop g1 input'
        (mkInputGenerator (ig_mean self) (ig_std self) (ig_threshold self)
           (ig_signals self) no' (ig_signal_orders self ++ [signal_no]))).

Fixpoint loop (body : loop_state -> nat -> result loop_state)
         (range : list nat) (st : loop_state) : result loop_state :=
  match range with
  | [] => Ok st
  | i :: range' => st' <- body st i ;; loop body range' st'
  end.

(** [get_random_signals]. [g] is the state of the global generator when
    the method is called and [self] the object it is called on; the
    result is the returned matrix, the object and the generator after
    the call. *)
Definition get_random_signals (self : InputGenerator) (g : rng_state)
           (iter signal_duration signal_repeat rest_duration
            population_size : nat) (seed : Z)
  : result (matrix * InputGenerator * rng_state) :=
  let iter_duration :=
    ((signal_duration + rest_duration) * signal_repeat + rest_duration)%nat in
  let total_duration := (iter_duration * iter)%nat in
  let self1 :=
    mkInputGenerator (ig_mean self) (ig_std self) (ig_threshold self)
      (ig_signals self) (ig_random_signal_no self) [] in
  let (self2, g1) := set_signals self1 signal_duration population_size seed in
  let random_signal_input := zeros2 total_duration population_size in
  let self3 :=
    mkInputGenerator (ig_mean self2) (ig_std self2) (ig_threshold self2)
      (ig_signals self2) (zeros total_duration) (ig_signal_orders self2) in
  st <- loop (loop_body signal_duration signal_repeat rest_duration
                population_size iter_duration)
          (seq 0 iter) (mkLoop g1 random_signal_input self3) ;;
  Ok (ls_input st, ls_self st, ls_rng st).

End Generator.

(** ** The network and its step loop *)

(** Modelled from the spec: the step loop of the host library and the
    behaviours a population carries are not part of the source file. A
    population runs, in this order, its [Input], its [Synapse] and its
    [LIF] behaviour; populations are advanced one after the other, in the
    order of the network, once per iteration; the iteration counter is
    [1] at the first step. The synapse groups are passive (behaviour
    [{}]), so nothing runs on them and their weights stay as they are. *)
Record Network : Type := mkNetwork {
  net_pops : list NeuronGroup;
  net_inputs : list (option matrix);
  net_syns : list SynapseGroup;
  net_iteration : nat
}.

Fixpoint update {A : Type} (l : list A) (j : nat) (a : A) : list A :=
  match l, j with
  | [], _ => []
  | _ :: l', O => a :: l'
  | x :: l', S j' => x :: update l' j' a
  end.

Definition population_step (inputs : list (option matrix))
           (syns : list SynapseGroup) (iteration : nat)
           (pops : list NeuronGroup) (j : nat) : result (list NeuronGroup) :=
  match nth_error pops j, nth_error inputs j with
  | Some n, Some input =>
      n1 <- Input.forward input iteration n ;;
      n2 <- Synapse.forward pops syns j n1 ;;
      Ok (update pops j (LIF.forward n2))
  | _, _ => Raise IndexError
  end.

Fixpoint population_steps (inputs : list (option matrix))
         (syns : list SynapseGroup) (iteration : nat)
         (js : list nat) (pops : list NeuronGroup) : result (list NeuronGroup) :=
  match js with
  | [] => Ok pops
  | j :: js' =>
      pops' <- population_step inputs syns iteration pops j ;;
      population_steps inputs syns iteration js' pops'
  end.

Definition simulate_iteration (net : Network) : result Network :=
  let iteration := S (net_iteration net) in
  pops <- population_steps (net_inputs net) (net_syns net) iteration
            (seq 0 (length (net_pops net))) (net_pops net) ;;
  Ok (mkNetwork pops (net_inputs net) (net_syns net) iteration).

Fixpoint simulate_iterations (iter : nat) (net : Network) : result Network :=
  match iter with
  | O => Ok net
  | S iter' => net' <- simulate_iteration net ;; simulate_iterations iter' net'
  end.

(** [net.initialize()] for a population of [size] neurons with the
    parameters [c] and the waveform [input]. *)
Definition initialize_population (c : lif_config) (size : nat)
           (input : option matrix) : result NeuronGroup :=
  r <- Input.initialize input (new_group size) ;;
  Ok (LIF.initialize c (snd r)).

(** The network of the end-to-end scenario: one excitatory and one
    inhibitory population, each fed the zero waveform of [ITER] steps, and
    the passive synapse groups [syns]. *)
Definition e2e_network (syns : list SynapseGroup) : result Network :=
  exc <- initialize_population EXC_CONFIG EXCITATORY_NEURON_SIZE
           (Some (get_zero_input EXCITATORY_NEURON_SIZE ITER)) ;;
  inh <- initialize_population INH_CONFIG INHIBITORY_NEURON_SIZE
           (Some (get_zero_input INHIBITORY_NEURON_SIZE ITER)) ;;
  Ok (mkNetwork [exc; inh]
        [Some (get_zero_input EXCITATORY_NEURON_SIZE ITER);
         Some (get_zero_input INHIBITORY_NEURON_SIZE ITER)]
        syns 0).

(** ** Trace

    The trace lives on the populations; the behaviour is attached to a
    synapse group and reaches its two endpoints through the store. Its
    parameter [tau] becomes a variable of the synapse group. *)

Definition set_trace (n : NeuronGroup) (t : vec) : NeuronGroup :=
  mkNeuronGroup (ng_size n) (ng_v n) (ng_spikes n) (ng_I n) t
    (ng_v_rest n) (ng_v_reset n) (ng_tau n) (ng_R n) (ng_threshold n).

(** The population at index [j] of the store. *)
Definition lookup (pops : list NeuronGroup) (j : nat) : result NeuronGroup :=
  match nth_error pops j with
  | Some n => Ok n
  | None => Raise IndexError
  end.

Module Trace.

(** [synapse.src.trace] and then [synapse.dst.trace] are set to zeros. *)
Definition initialize (pops : list NeuronGroup) (s : SynapseGroup)
  : result (list NeuronGroup) :=
  src <- lookup pops (sg_src s) ;;
  let pops1 := update pops (sg_src s) (set_trace src (zeros (ng_size src))) in
  dst <- lookup pops1 (sg_dst s) ;;
  Ok (update pops1 (sg_dst s) (set_trace dst (zeros (ng_size dst)))).

(** [-1 * n.trace/s.tau + n.spikes] *)
Definition _get_trace_change (tau : Q) (n : NeuronGroup) : vec :=
  vadd (map (fun x => -1 * x / tau) (ng_trace n)) (map b2q (ng_spikes n)).

(** [n.trace += self._get_trace_change(synapse, n)] *)
Definition bump (tau : Q) (n : NeuronGroup) : NeuronGroup :=
  set_trace n (vadd (ng_trace n) (_get_trace_change tau n)).

(** The source is updated first; the destination is read from the store
    after that, so a group from a population to itself updates the one
    trace twice. *)
Definition _update_spike_trace (tau : Q) (pops : list NeuronGroup)
           (s : SynapseGroup) : result (list NeuronGroup) :=
  src <- lookup pops (sg_src s) ;;
  let pops1 := update pops (sg_src s) (bump tau src) in
  dst <- lookup pops1 (sg_dst s) ;;
  Ok (update pops1 (sg_dst s) (bump tau dst)).

Definition forward (tau : Q) (pops : list NeuronGroup) (s : SynapseGroup)
  : result (list NeuronGroup) :=
  _update_spike_trace tau pops s.

End Trace.

(** ** Simulator

    The populations are named by their index in the network; the
    simulator holds the indices of the excitatory and of the inhibitory
    ones. A learning rule is a class of the caller's, with its parameters,
    and the parameters of the trace are a dictionary of the caller's:
    three types the simulator only passes on. A connection is the dictionary
    with the keys [src], [dst], [learning_rule], [learning_params] and
    [clip_params]. *)

Section Simulator.

Context {rule_class rule_params trace_kwargs : Type}.

Inductive behavior : Type :=
| BTrace (params : trace_kwargs)
| BLearning (rule : rule_class) (params : rule_params)
| BWeightClip (w_min w_max : option Q).

Record connection : Type := mkConnection {
  conn_src : Z;
  conn_dst : Z;
  conn_learning_rule : option rule_class;
  conn_learning_params : rule_params;
  conn_clip_params : option Q * option Q
}.

(** A synapse group as the simulator creates it: its endpoints, its tag and
    its behaviours by key. *)
Record group : Type := mkGroup {
  g_src : nat;
  g_dst : nat;
  g_tag : channel;
  g_behavior : list (nat * behavior)
}.

Record connections : Type := mkConnections {
  same_inh : list connection;
  same_exc : list connection;
  different_exc_inh : list connection;
  different_inh_exc : list connection
}.

Record Simulator : Type := mkSimulator {
  excitatory_pops : list nat;
  inhibitory_pops : list nat;
  sim_connections : connections;
  trace_params : trace_kwargs
}.

(** The groups are created one per connection, in the order of the list;
    a population index out of the list raises. *)
Fixpoint add_coonections (self : Simulator)
         (src_populations dst_populations : list nat)
         (connection_maps : list connection) (connection_tag : channel)
  : result (list group) :=
  match connection_maps with
  | [] => Ok []
  | connection :: rest =>
      src_pop <- py_index src_populations (conn_src connection) ;;
      dst_pop <- py_index dst_populations (conn_dst connection) ;;
      let created :=
        match conn_learning_rule connection with
        | None => mkGroup src_pop dst_pop connection_tag []
        | Some learning_rule =>
            mkGroup src_pop dst_pop connection_tag
              [ (1%nat, BTrace (trace_params self));
                (2%nat, BLearning learning_rule (conn_learning_params connection));
                (3%nat, BWeightClip (fst (conn_clip_params connection))
                                    (snd (conn_clip_params connection))) ]
        end in
      more <- add_coonections self src_populations dst_populations rest
                connection_tag ;;
      Ok (created :: more)
  end.

(** The groups of the network after the four calls, in creation order. *)
Definition set_coonections (self : Simulator) : result (list group) :=
  g1 <- add_coonections self (inhibitory_pops self) (inhibitory_pops self)
          (same_inh (sim_connections self)) GABA ;;
  g2 <- add_coonections self (excitatory_pops self) (excitatory_pops self)
          (same_exc (sim_connections self)) GLUTAMATE ;;
  g3 <- add_coonections self (excitatory_pops self) (inhibitory_pops self)
          (different_exc_inh (sim_connections self)) GLUTAMATE ;;
  g4 <- add_coonections self (inhibitory_pops self) (excitatory_pops self)
          (different_inh_exc (sim_connections self)) GABA ;;
  Ok (g1 ++ g2 ++ g3 ++ g4).

End Simulator.


(** ** Sample populations and configurations *)

(** A population of three neurons under [EXC_CONFIG]. *)
Definition pop3 (v c : vec) : NeuronGroup :=
  mkNeuronGroup 3 v [false; false; false] c [0; 0; 0]
    (cfg_v_rest EXC_CONFIG) (cfg_v_reset EXC_CONFIG) (cfg_tau EXC_CONFIG)
    (cfg_R EXC_CONFIG) (cfg_threshold EXC_CONFIG).

(** A population of four neurons under [EXC_CONFIG], with no current. *)
Definition pop4 (v : vec) : NeuronGroup :=
  mkNeuronGroup 4 v [false; false; false; false] [0; 0; 0; 0] [0; 0; 0; 0]
    (cfg_v_rest EXC_CONFIG) (cfg_v_reset EXC_CONFIG) (cfg_tau EXC_CONFIG)
    (cfg_R EXC_CONFIG) (cfg_threshold EXC_CONFIG).

(** ** Vocabulary of the KWTA claims *)

(** How many entries of [l] satisfy [p]. *)
Definition count {A : Type} (p : A -> bool) (l : list A) : nat :=
  length (filter p l).

(** A neuron at potential [x] is a candidate when [x >= threshold]; its
    margin is [x - threshold]. *)
Definition candidate (n : NeuronGroup) (x : Q) : bool :=
  Qle_bool (ng_threshold n) x.

Definition margin (n : NeuronGroup) (x : Q) : Q := x - ng_threshold n.

(** The entry of [will_spike_v] of a neuron at potential [x], and its
    entry in the mask [will_spike_v < m] of the neurons that are reset. *)
Definition masked_margin (n : NeuronGroup) (x : Q) : Q :=
  b2q (candidate n x) * margin n x.

Definition suppressed (n : NeuronGroup) (m x : Q) : bool :=
  Qlt_bool (masked_margin n x) m.

(** Descending order, by value. *)
Definition desc (a b : Q) : Prop := b <= a.

(** [sorted l]: every entry is at least every later entry. *)
Fixpoint sorted (l : vec) : Prop :=
  match l with
  | [] => True
  | x :: l' => Forall (desc x) l' /\ sorted l'
  end.

(** ** Vocabulary of the stimulus claims *)

(** The block of one episode that plays the class [c], and the blocks of
    the episodes playing the classes [cs], one after the other. *)
Definition episode_input (signals : matrix * matrix)
           (signal_repeat rest_duration population_size : nat) (c : bool) : matrix :=
  get_signal_over_iter (if c then snd signals else fst signals)
                       signal_repeat rest_duration population_size
  ++ zeros2 rest_duration population_size.

Definition episodes_input (signals : matrix * matrix)
           (signal_repeat rest_duration population_size : nat) (cs : list bool)
  : matrix :=
  concat (map (episode_input signals signal_repeat rest_duration population_size) cs).

Definition episodes_labels (signal_duration signal_repeat rest_duration : nat)
           (cs : list bool) : vec :=
  concat (map (fun c => get_signal_no_over_iter c signal_duration signal_repeat
                          rest_duration) cs).

(** Where a timestep lies: in a signal block or in a rest block. *)
Inductive block : Type := SignalBlock | RestBlock.

Definition episode_layout (signal_duration signal_repeat rest_duration : nat)
  : list block :=
  tile (repeat SignalBlock signal_duration ++ repeat RestBlock rest_duration)
       signal_repeat
  ++ repeat RestBlock rest_duration.

Definition layout (iter signal_duration signal_repeat rest_duration : nat)
  : list block :=
  tile (episode_layout signal_duration signal_repeat rest_duration) iter.

(** What a timestep in block [b] carries: label [l] and row [r]. *)
Definition timestep_ok (population_size : nat) (b : block) (l : Q) (r : vec) : Prop :=
  match b with
  | SignalBlock => l == 0 \/ l == 1
  | RestBlock => l == -1 /\ r = zeros population_size
  end.

Inductive Forall3 {A B C : Type} (P : A -> B -> C -> Prop)
  : list A -> list B -> list C -> Prop :=
| Forall3_nil : Forall3 P [] [] []
| Forall3_cons a b c la lb lc :
    P a b c -> Forall3 P la lb lc -> Forall3 P (a :: la) (b :: lb) (c :: lc).

(** A small generator, for running the stimulus generator on examples:
    the state is an integer, a linear congruence advances it. *)
Definition toy_rng : TorchRng := {|
  rng_state := Z;
  manual_seed := fun seed => seed;
  rand1 := fun g => (Qmake (g mod 7) 7, ((5 * g + 3) mod 101)%Z);
  normal1 := fun mu std g =>
               (mu + std * Qmake ((g mod 5) - 2) 1, ((3 * g + 1) mod 101)%Z)
|}.

(** ** Vocabulary of the end-to-end claim *)

(** A population of [size] neurons configured by [c] is quiet when every
    potential equals [v_rest], no neuron spikes, and [v_rest] is below the
    threshold. *)
Definition quiet (spec : lif_config * nat) (n : NeuronGroup) : Prop :=
  ng_size n = snd spec /\
  length (ng_v n) = snd spec /\
  Forall (fun x => x == ng_v_rest n) (ng_v n) /\
  ng_spikes n = repeat false (snd spec) /\
  ng_v_rest n = cfg_v_rest (fst spec) /\
  ng_threshold n = cfg_threshold (fst spec) /\
  cfg_v_rest (fst spec) < cfg_threshold (fst spec).

(** A synapse group fits populations of the sizes [sizes] when its source
    exists and its weight matrix has one row per destination neuron, each
    with one entry per source neuron. *)
Definition fits (sizes : list nat) (s : SynapseGroup) : Prop :=
  nth_error sizes (sg_dst s) = Some (length (sg_W s)) /\
  exists src_size, nth_error sizes (sg_src s) = Some src_size /\
                   Forall (fun r => length r = src_size) (sg_W s).

(** A current that is zero in every entry. *)
Definition all_zero (t : vec) : Prop := Forall (fun x => x == 0) t.

(** The zero waveforms of [duration] steps for populations of [sizes]. *)
Definition zero_inputs (duration : nat) (sizes : list nat) : list (option matrix) :=
  map (fun size => Some (get_zero_input size duration)) sizes.

(** Two passive synapse groups between the populations of the end-to-end
    network, a small slice of a full wiring: an excitatory group onto the
    inhibitory population and an inhibitory one back. *)
Definition sample_syns : list SynapseGroup :=
  [ mkSynapseGroup 0 1 GLUTAMATE
      (repeat (repeat (1 # 2) EXCITATORY_NEURON_SIZE) INHIBITORY_NEURON_SIZE);
    mkSynapseGroup 1 0 GABA
      (repeat (repeat (1 # 4) INHIBITORY_NEURON_SIZE) EXCITATORY_NEURON_SIZE) ].

(** ** Vocabulary of the further properties *)

(** Every entry of a matrix satisfies [P]. *)
Definition entries (P : Q -> Prop) (W : matrix) : Prop := Forall (Forall P) W.

(** The shape of a matrix: the lengths of its rows. *)
Definition shape (W : matrix) : list nat := map (@length Q) W.

(** [b] follows [a] entry by entry under [R]: every entry of [b] faces an
    entry of [a] it is related to. *)
Definition pointwise (R : Q -> Q -> Prop) (a b : vec) : Prop :=
  forall (i : nat) (y : Q),
    nth_error b i = Some y -> exists x, nth_error a i = Some x /\ R x y.

(** The sources of the store are silent: no neuron of any population
    spikes. *)
Definition silent (pops : list NeuronGroup) : Prop :=
  Forall (fun n => Forall (fun b : bool => b = false) (ng_spikes n)) pops.

(** Some synapse group of the network carries the tag [tag]. The host
    gives every population an entry of [afferent_synapses] for each tag
    that occurs in the network, so this is when the lookup of [tag] finds
    its key. *)
Definition tag_present (syns : list SynapseGroup) (tag : channel) : Prop :=
  exists s, In s syns /\ sg_tag s = tag.

(** The synapse group [s] fits the store and a destination of [len]
    neurons: its source is in the store, its weight matrix has [len] rows,
    and each row has one entry per source neuron. These are the shapes for
    which [torch.matmul] and the in-place sum are defined. *)
Definition well_shaped (pops : list NeuronGroup) (len : nat) (s : SynapseGroup)
  : Prop :=
  length (sg_W s) = len /\
  exists src, nth_error pops (sg_src s) = Some src /\
              Forall (fun r => length r = length (ng_spikes src)) (sg_W s).

(** The trace of a population stays within [0, tau]. *)
Definition trace_bounded (tau : Q) (n : NeuronGroup) : Prop :=
  Forall (fun x => 0 <= x /\ x <= tau) (ng_trace n).

(** A store of two populations of two neurons each, the first of which
    has one spiking neuron, and two synapse groups onto the second. *)
Definition pop2 (spikes : bvec) (cur trace : vec) : NeuronGroup :=
  mkNeuronGroup 2 [-65; -65] spikes cur trace
    (cfg_v_rest EXC_CONFIG) (cfg_v_reset EXC_CONFIG) (cfg_tau EXC_CONFIG)
    (cfg_R EXC_CONFIG) (cfg_threshold EXC_CONFIG).

Definition store2 : list NeuronGroup :=
  [pop2 [true; false] [0; 0] [1; 0]; pop2 [false; false] [1; 1] [0; 2]].

Definition syn_exc : SynapseGroup :=
  mkSynapseGroup 0 1 GLUTAMATE [[1 # 2; 1]; [3; 0]].

Definition syn_self : SynapseGroup :=
  mkSynapseGroup 0 0 GLUTAMATE [[1; 1]; [1; 1]].

Definition syn_inh : SynapseGroup :=
  mkSynapseGroup 1 0 GABA [[1; 0]; [0; 2]].

(** The store of two populations of two neurons in which nothing spikes. *)
Definition store2_silent : list NeuronGroup :=
  [pop2 [false; false] [0; 0] [0; 0]; pop2 [false; false] [3; 4] [0; 0]].

(** An index that a Python list of length [len] accepts. *)
Definition in_range (len : nat) (z : Z) : Prop :=
  (- Z.of_nat len <= z < Z.of_nat len)%Z.

Section SimulatorVocabulary.

Context {rule_class rule_params trace_kwargs : Type}.

(** The behaviours of the group made for the connection [c]. *)
Definition behaviors_of (self : @Simulator rule_class rule_params trace_kwargs)
           (c : @connection rule_class rule_params)
  : list (nat * @behavior rule_class rule_params trace_kwargs) :=
  match conn_learning_rule c with
  | None => []
  | Some rule =>
      [ (1%nat, BTrace (trace_params self));
        (2%nat, BLearning rule (conn_learning_params c));
        (3%nat, BWeightClip (fst (conn_clip_params c)) (snd (conn_clip_params c))) ]
  end.

(** The group [g] answers the connection [c]: its endpoints are the
    populations that [c] names in [srcs] and [dsts], its tag is [tag], and
    its behaviours are those of [c]. *)
Definition built_from (self : @Simulator rule_class rule_params trace_kwargs)
           (srcs dsts : list nat) (tag : channel)
           (c : @connection rule_class rule_params)
           (g : @group rule_class rule_params trace_kwargs) : Prop :=
  py_index srcs (conn_src c) = Ok (g_src g) /\
  py_index dsts (conn_dst c) = Ok (g_dst g) /\
  In (g_src g) srcs /\ In (g_dst g) dsts /\
  g_tag g = tag /\
  g_behavior g = behaviors_of self c.

Definition indices_ok (srcs dsts : list nat)
           (maps : list (@connection rule_class rule_params)) : Prop :=
  Forall (fun c => in_range (length srcs) (conn_src c) /\
                   in_range (length dsts) (conn_dst c)) maps.

End SimulatorVocabulary.

(** A simulator over the populations 0 and 1 (excitatory) and 2
    (inhibitory), with one plastic and two passive connections; learning
    rules are named by a number. *)
Definition sample_simulator : @Simulator nat unit Q :=
  mkSimulator [0%nat; 1%nat] [2%nat]
    (mkConnections
       [mkConnection 0 0 None tt (None, None)]
       [mkConnection 0 1 (Some 7%nat) tt (Some 0, Some 1)]
       [mkConnection (-1) 0 None tt (None, None)]
       [])
    10.

(** The same, with an excitatory connection from a population that does
    not exist. *)
Definition broken_simulator : @Simulator nat unit Q :=
  mkSimulator [0%nat; 1%nat] [2%nat]
    (mkConnections
       [mkConnection 0 0 None tt (None, None)]
       [mkConnection 2 1 None tt (None, None)]
       []
       [])
    10.


(** * Properties *)

(** ** Lemmas on tensors *)

Lemma nth_error_map2 {A B C : Type} (f : A -> B -> C) (l : list A) (m : list B)
      (i : nat) (a : A) (b : B) :
  nth_error l i = Some a -> nth_error m i = Some b ->
  nth_error (map2 f l m) i = Some (f a b).
Proof.
  revert m i. induction l as [|x l IH]; intros [|y m] [|i]; simpl; try discriminate.
  - intros [= ->] [= ->]. reflexivity.
  - apply IH.
Qed.

Lemma length_map2 {A B C : Type} (f : A -> B -> C) (l : list A) (m : list B) :
  length (map2 f l m) = Nat.min (length l) (length m).
Proof.
  revert m. induction l as [|x l IH]; intros [|y m]; simpl; auto.
Qed.

Lemma nth_error_vge (t : vec) (c : Q) (i : nat) (x : Q) :
  nth_error t i = Some x -> nth_error (vge t c) i = Some (Qle_bool c x).
Proof.
  intros H. unfold vge. rewrite nth_error_map, H. reflexivity.
Qed.

Lemma Qlt_bool_iff (x y : Q) : Qlt_bool x y = true <-> x < y.
Proof.
  unfold Qlt_bool. rewrite negb_true_iff. split.
  - intros H. apply Qnot_le_lt. intros Hle.
    apply Qle_bool_iff in Hle. congruence.
  - intros H. destruct (Qle_bool y x) eqn:E; [|reflexivity].
    apply Qle_bool_iff in E. exfalso. apply (Qlt_not_le _ _ H E).
Qed.

Lemma Qlt_bool_false_iff (x y : Q) : Qlt_bool x y = false <-> y <= x.
Proof.
  unfold Qlt_bool. rewrite negb_false_iff. apply Qle_bool_iff.
Qed.

Lemma Qle_bool_false_iff (x y : Q) : Qle_bool x y = false <-> y < x.
Proof.
  rewrite <- Qlt_bool_iff. unfold Qlt_bool.
  destruct (Qle_bool x y); simpl; intuition congruence.
Qed.

(** ** The membrane step *)

Lemma nth_error_fire_v (n : NeuronGroup) (i : nat) (x : Q) :
  nth_error (ng_v n) i = Some x ->
  nth_error (ng_v (LIF._fire n)) i =
    Some (if Qle_bool (ng_threshold n) x then ng_v_reset n else x).
Proof.
  intros H. unfold LIF._fire, masked_fill. simpl.
  rewrite (nth_error_map2 _ _ _ i x (Qle_bool (ng_threshold n) x) H
             (nth_error_vge _ _ _ _ H)).
  reflexivity.
Qed.

Lemma nth_error_dv_dt (n : NeuronGroup) (i : nat) (x c : Q) :
  nth_error (ng_v n) i = Some x -> nth_error (ng_I n) i = Some c ->
  nth_error (LIF._dv_dt n) i = Some ((ng_v_rest n - x) + ng_R n * c).
Proof.
  intros Hv HI. unfold LIF._dv_dt, vadd.
  apply nth_error_map2; rewrite nth_error_map.
  - rewrite Hv. reflexivity.
  - rewrite HI. reflexivity.
Qed.

Lemma nth_error_forward_v (n : NeuronGroup) (i : nat) (x c : Q) :
  nth_error (ng_v n) i = Some x -> nth_error (ng_I n) i = Some c ->
  let y := if Qle_bool (ng_threshold n) x then ng_v_reset n else x in
  nth_error (ng_v (LIF.forward n)) i =
    Some (y + ((ng_v_rest n - y) + ng_R n * c) / ng_tau n).
Proof.
  intros Hv HI y. unfold LIF.forward. cbv zeta.
  pose proof (nth_error_fire_v n i x Hv) as Hf.
  assert (HI' : nth_error (ng_I (LIF._fire n)) i = Some c) by exact HI.
  pose proof (nth_error_dv_dt (LIF._fire n) i _ c Hf HI') as Hd.
  unfold set_v at 1. cbn [ng_v]. unfold vadd.
  erewrite nth_error_map2; [reflexivity | exact Hf |].
  rewrite nth_error_map, Hd. reflexivity.
Qed.

Lemma forward_spikes (n : NeuronGroup) :
  ng_spikes (LIF.forward n) = vge (ng_v n) (ng_threshold n).
Proof. reflexivity. Qed.

(** C1. [LIF.forward] first sets [spikes] to [v >= threshold] elementwise,
    then writes [v_reset] at exactly the spiking indices, and only then adds
    [(v_rest - v + R*I)/tau], computed from the potential after the reset,
    to every neuron: a neuron that spiked ends the step at
    [v_reset + (v_rest - v_reset + R*I[i])/tau], and one that did not at
    [v[i] + (v_rest - v[i] + R*I[i])/tau]. *)
Theorem LIF_forward_fire_then_integrate (n : NeuronGroup) (i : nat) (x c : Q) :
  nth_error (ng_v n) i = Some x ->
  nth_error (ng_I n) i = Some c ->
  let fired := LIF._fire n in
  ng_spikes fired = vge (ng_v n) (ng_threshold n) /\
  nth_error (ng_spikes fired) i = Some (Qle_bool (ng_threshold n) x) /\
  nth_error (ng_v fired) i =
    Some (if Qle_bool (ng_threshold n) x then ng_v_reset n else x) /\
  LIF.forward n =
    set_v fired
      (vadd (ng_v fired) (map (fun d => d / ng_tau n) (LIF._dv_dt fired))) /\
  ng_spikes (LIF.forward n) = ng_spikes fired /\
  (Qle_bool (ng_threshold n) x = true ->
   nth_error (ng_v (LIF.forward n)) i =
     Some (ng_v_reset n + ((ng_v_rest n - ng_v_reset n) + ng_R n * c) / ng_tau n)) /\
  (Qle_bool (ng_threshold n) x = false ->
   nth_error (ng_v (LIF.forward n)) i =
     Some (x + ((ng_v_rest n - x) + ng_R n * c) / ng_tau n)).
Proof.
  intros Hv HI fired. subst fired.
  pose proof (nth_error_forward_v n i x c Hv HI) as Hfw.
  repeat split.
  - apply (nth_error_vge _ _ _ _ Hv).
  - apply nth_error_fire_v, Hv.
  - intros Hx. rewrite Hfw, Hx. reflexivity.
  - intros Hx. rewrite Hfw, Hx. reflexivity.
Qed.

Lemma LIF_forward_fire_then_integrate_witness :
  nth_error (ng_v (LIF.forward (pop3 [-50; -60; -55] [1; 3; 0]))) 0 =
    Some (-65 + ((-65 - -65) + 2 * 1) / 10).
Proof.
  apply (LIF_forward_fire_then_integrate (pop3 [-50; -60; -55] [1; 3; 0])
           0%nat (-50) 1 eq_refl eq_refl).
  reflexivity.
Defined.

(** C2, as the specification states it, fails: a neuron at [-50] with
    current [1] under [EXC_CONFIG] spikes and ends the step at [-64.8],
    not at [v_reset = -65]. *)
Lemma LIF_spiking_neuron_not_left_at_reset :
  let n := pop3 [-50; -60; -55] [1; 3; 0] in
  Qle_bool (ng_threshold n) (-50) = true /\
  nth_error (ng_v n) 0 = Some (-50) /\
  exists y, nth_error (ng_v (LIF.forward n)) 0 = Some y /\ ~ y == ng_v_reset n.
Proof.
  cbv zeta. split; [reflexivity|]. split; [reflexivity|].
  eexists. split; [reflexivity|]. vm_compute. discriminate.
Qed.

(** C2, amended. When [v[i] >= threshold] holds before the update, the step
    sets [spikes[i]], resets [v[i]] to [v_reset] and then adds the
    increment, so the step ends with
    [v[i] = v_reset + (v_rest - v_reset + R*I[i])/tau]. The spike is not
    retained: whatever the current [c'] of the next step, its spike vector
    is recomputed from the potentials alone. *)
Theorem LIF_spike_resets_then_integrates (n : NeuronGroup) (i : nat) (x c : Q) :
  nth_error (ng_v n) i = Some x ->
  nth_error (ng_I n) i = Some c ->
  Qle_bool (ng_threshold n) x = true ->
  let y := ng_v_reset n + ((ng_v_rest n - ng_v_reset n) + ng_R n * c) / ng_tau n in
  nth_error (ng_spikes (LIF.forward n)) i = Some true /\
  nth_error (ng_v (LIF._fire n)) i = Some (ng_v_reset n) /\
  nth_error (ng_v (LIF.forward n)) i = Some y /\
  forall c' : vec,
    let next := LIF.forward (set_I (LIF.forward n) c') in
    ng_spikes next = vge (ng_v (LIF.forward n)) (ng_threshold n) /\
    nth_error (ng_spikes next) i = Some (Qle_bool (ng_threshold n) y).
Proof.
  intros Hv HI Hx y.
  pose proof (nth_error_forward_v n i x c Hv HI) as Hfw.
  rewrite Hx in Hfw. cbv zeta in Hfw. fold y in Hfw.
  split; [|split; [|split]].
  - rewrite forward_spikes, (nth_error_vge _ _ _ _ Hv), Hx. reflexivity.
  - rewrite (nth_error_fire_v n i x Hv), Hx. reflexivity.
  - exact Hfw.
  - intros c' next. subst next. rewrite forward_spikes. split.
    + reflexivity.
    + apply nth_error_vge. exact Hfw.
Qed.

Lemma LIF_spike_resets_then_integrates_witness :
  nth_error (ng_spikes (LIF.forward (pop3 [-50; -60; -55] [1; 3; 0]))) 0 = Some true.
Proof.
  apply (LIF_spike_resets_then_integrates (pop3 [-50; -60; -55] [1; 3; 0])
           0%nat (-50) 1 eq_refl eq_refl eq_refl).
Defined.

(** ** WeightClip *)

Lemma Qmax_cases (x y : Q) : Qmax x y = x \/ Qmax x y = y.
Proof.
  unfold Qmax, GenericMinMax.gmax. destruct (x ?= y); auto.
Qed.

Lemma clip_in_range (lo hi x : Q) :
  lo <= x -> x <= hi -> WeightClip.clip lo hi x = x.
Proof.
  intros Hlo Hhi. unfold WeightClip.clip.
  assert (E : Qmax x lo = x).
  { unfold Qmax, GenericMinMax.gmax. destruct (x ?= lo) eqn:C; trivial.
    apply Qlt_alt in C. exfalso. apply (Qlt_not_le _ _ C Hlo). }
  rewrite E. unfold Qmin, GenericMinMax.gmin.
  destruct (x ?= hi) eqn:C; trivial.
  apply Qgt_alt in C. exfalso. apply (Qlt_not_le _ _ C Hhi).
Qed.

Lemma clip_bounds (lo hi x : Q) :
  lo <= hi -> lo <= WeightClip.clip lo hi x <= hi.
Proof.
  intros H. unfold WeightClip.clip. split.
  - apply Q.min_glb; [apply Q.le_max_r | exact H].
  - apply Q.le_min_r.
Qed.

Lemma clip_idempotent (lo hi x : Q) :
  lo <= hi ->
  WeightClip.clip lo hi (WeightClip.clip lo hi x) = WeightClip.clip lo hi x.
Proof.
  intros H. destruct (clip_bounds lo hi x H). apply clip_in_range; assumption.
Qed.

Lemma map_map_id_on {A : Type} (f : A -> A) (P : A -> Prop) (W : list (list A)) :
  (forall x, P x -> f x = x) ->
  Forall (Forall P) W -> map (map f) W = W.
Proof.
  intros Hf HW. induction HW as [|r W Hr _ IH]; simpl; [reflexivity|].
  f_equal; [|exact IH].
  induction Hr as [|x r Hx _ IHr]; simpl; [reflexivity|].
  rewrite (Hf x Hx), IHr. reflexivity.
Qed.

Lemma forward_in_range (c : WeightClip.t) (W : matrix) :
  WeightClip.w_min c <= WeightClip.w_max c ->
  Forall (Forall (fun x => WeightClip.w_min c <= x <= WeightClip.w_max c))
         (WeightClip.forward c W).
Proof.
  intros H. unfold WeightClip.forward.
  apply Forall_map, Forall_forall. intros r _.
  apply Forall_map, Forall_forall. intros x _.
  apply clip_bounds, H.
Qed.

(** C6. For bounds [w_min < w_max], clipping a weight matrix twice with
    the same bounds gives the same matrix as clipping it once, and clipping
    a matrix whose entries are all within the bounds leaves it as it is. *)
Theorem WeightClip_forward_idempotent (c : WeightClip.t) (W : matrix) :
  WeightClip.w_min c < WeightClip.w_max c ->
  WeightClip.forward c (WeightClip.forward c W) = WeightClip.forward c W /\
  (Forall (Forall (fun x => WeightClip.w_min c <= x <= WeightClip.w_max c)) W ->
   WeightClip.forward c W = W).
Proof.
  intros Hlt. apply Qlt_le_weak in Hlt.
  assert (Hid : forall W',
             Forall (Forall (fun x => WeightClip.w_min c <= x <= WeightClip.w_max c)) W' ->
             WeightClip.forward c W' = W').
  { intros W'. apply map_map_id_on. intros x [Hlo Hhi].
    apply clip_in_range; assumption. }
  split.
  - apply Hid, forward_in_range, Hlt.
  - apply Hid.
Qed.

Lemma WeightClip_forward_idempotent_witness :
  let c := WeightClip.mk 0 1 in
  let W := [[-1; 1 # 2]; [3; 1]] in
  WeightClip.forward c (WeightClip.forward c W) = WeightClip.forward c W.
Proof.
  cbv zeta.
  apply (WeightClip_forward_idempotent (WeightClip.mk 0 1) [[-1; 1 # 2]; [3; 1]]).
  reflexivity.
Defined.

(** ** Configuration errors *)

Lemma py_index_past_end {A : Type} (t : list A) (z : Z) :
  (Z.of_nat (length t) <= z)%Z -> py_index t z = Raise IndexError.
Proof.
  intros H. unfold py_index.
  destruct (z <? 0)%Z eqn:Ez; [lia|].
  destruct (z <? Z.of_nat (length t))%Z eqn:El; [lia|].
  rewrite andb_false_r. reflexivity.
Qed.

Lemma py_index_in_range {A : Type} (t : list A) (i : nat) (a : A) :
  nth_error t i = Some a -> py_index t (Z.of_nat i) = Ok a.
Proof.
  intros H. unfold py_index.
  assert (Hlt : (i < length t)%nat) by (apply nth_error_Some; congruence).
  destruct (Z.of_nat i <? 0)%Z eqn:Ez; [lia|].
  destruct (0 <=? Z.of_nat i)%Z eqn:E0; [|lia].
  destruct (Z.of_nat i <? Z.of_nat (length t))%Z eqn:El; [|lia].
  simpl. rewrite Nat2Z.id, H. reflexivity.
Qed.

Lemma bsum_le_length (m : bvec) : (bsum m <= length m)%nat.
Proof. unfold bsum. apply filter_length_le. Qed.

Lemma length_will_spike (n : NeuronGroup) :
  length (KWTA.will_spike n) = length (ng_v n).
Proof. unfold KWTA.will_spike, vge. apply length_map. Qed.

(** C5, as the specification states it, fails on each of its three parts
    but the first: the bounds [-1 < 1] are refused by [WeightClip], a
    waveform of no row at all passes [Input.initialize], and so does
    [k = 0] pass [KWTA.initialize]. *)
Lemma configuration_errors_not_all_checked :
  (-1 < 1 /\ WeightClip.initialize (Some (-1)) (Some 1) = Raise AssertionError) /\
  Input.initialize (Some []) (new_group 3) =
    Ok (Some [], Input._reset_inputs (new_group 3)) /\
  KWTA.initialize (Some 0%Z) = Ok (Some 0%Z).
Proof.
  repeat split.
Qed.

(** C5, amended. Only the weight bounds are checked when the behaviours are
    initialized: [WeightClip.initialize] fails (assertion) when
    [w_min >= w_max], and it succeeds exactly when [0 <= w_min < w_max].
    [Input.initialize] and [KWTA.initialize] check nothing and succeed for
    every waveform and every [k]. A waveform shorter than the run fails at
    step time, at the first step [t] past its last row, and the steps within
    it find their row; a negative [k] fails at every step; a [k] of at least
    the population size never fails, and suppresses nothing. *)
Theorem configuration_errors_checked_at_initialize
        (lo hi : Q) (w : matrix) (input : option matrix) (t : nat) (k : Z)
        (n : NeuronGroup) :
  (hi <= lo -> WeightClip.initialize (Some lo) (Some hi) = Raise AssertionError) /\
  (0 <= lo /\ lo < hi <->
   WeightClip.initialize (Some lo) (Some hi) = Ok (WeightClip.mk lo hi)) /\
  Input.initialize input n = Ok (input, Input._reset_inputs n) /\
  ((length w < t)%nat -> Input.forward (Some w) t n = Raise IndexError) /\
  ((1 <= t <= length w)%nat ->
   exists row, nth_error w (t - 1) = Some row /\
               py_index w (Z.of_nat t - 1) = Ok row) /\
  KWTA.initialize (Some k) = Ok (Some k) /\
  ((k < 0)%Z -> KWTA.forward (Some k) n = Raise RuntimeError) /\
  ((Z.of_nat (length (ng_v n)) <= k)%Z -> KWTA.forward (Some k) n = Ok n).
Proof.
  split; [|split; [|split; [|split; [|split; [|split; [|split]]]]]].
  - intros H. unfold WeightClip.initialize. simpl.
    apply Qlt_bool_false_iff in H. rewrite H, andb_false_r. reflexivity.
  - unfold WeightClip.initialize. simpl. split.
    + intros [H0 Hlt]. apply Qle_bool_iff in H0. apply Qlt_bool_iff in Hlt.
      rewrite H0, Hlt. reflexivity.
    + destruct (Qle_bool 0 lo) eqn:E0; [|discriminate].
      destruct (Qlt_bool lo hi) eqn:E1; [|discriminate].
      intros _. split; [apply Qle_bool_iff, E0 | apply Qlt_bool_iff, E1].
  - reflexivity.
  - intros H. unfold Input.forward.
    rewrite py_index_past_end by lia. reflexivity.
  - intros [H1 Hle].
    destruct (nth_error w (t - 1)) as [row|] eqn:E.
    + exists row. split; [reflexivity|].
      replace (Z.of_nat t - 1)%Z with (Z.of_nat (t - 1)) by lia.
      apply py_index_in_range, E.
    + apply nth_error_None in E. lia.
  - reflexivity.
  - intros Hk. unfold KWTA.forward.
    destruct (Z.of_nat (bsum (KWTA.will_spike n)) <=? k)%Z eqn:E; [lia|].
    unfold KWTA.min_value, topk.
    destruct (0 <=? k)%Z eqn:E0; [lia|]. reflexivity.
  - intros Hk. unfold KWTA.forward.
    pose proof (bsum_le_length (KWTA.will_spike n)) as Hb.
    rewrite length_will_spike in Hb.
    destruct (Z.of_nat (bsum (KWTA.will_spike n)) <=? k)%Z eqn:E; [reflexivity|lia].
Qed.

Lemma configuration_errors_checked_at_initialize_witness :
  WeightClip.initialize (Some 1) (Some 1) = Raise AssertionError /\
  Input.forward (Some [[0; 0; 0]]) 2 (pop3 [-65; -65; -65] [0; 0; 0]) =
    Raise IndexError /\
  KWTA.forward (Some (-1)%Z) (pop3 [-65; -65; -65] [0; 0; 0]) = Raise RuntimeError /\
  KWTA.forward (Some 3%Z) (pop3 [-50; -50; -50] [0; 0; 0]) =
    Ok (pop3 [-50; -50; -50] [0; 0; 0]).
Proof.
  split; [|split; [|split]].
  - apply (configuration_errors_checked_at_initialize
             1 1 [] None 0%nat 0%Z (new_group 0)).
    apply Qle_refl.
  - apply (configuration_errors_checked_at_initialize
             0 1 [[0; 0; 0]] None 2%nat 0%Z (pop3 [-65; -65; -65] [0; 0; 0])).
    simpl. lia.
  - apply (configuration_errors_checked_at_initialize
             0 1 [] None 0%nat (-1)%Z (pop3 [-65; -65; -65] [0; 0; 0])).
    reflexivity.
  - apply (configuration_errors_checked_at_initialize
             0 1 [] None 0%nat 3%Z (pop3 [-50; -50; -50] [0; 0; 0])).
    simpl. lia.
Defined.

(** ** KWTA: failure and frame *)

(** C10. With [k = 0], which [initialize] accepts unchecked, the step of a
    population with at least one neuron at or above the threshold fails
    with a runtime error: it takes the minimum of an empty top-k result. *)
Theorem KWTA_zero_k_fails_at_step (n : NeuronGroup) :
  (1 <= bsum (KWTA.will_spike n))%nat ->
  KWTA.initialize (Some 0%Z) = Ok (Some 0%Z) /\
  topk (KWTA.will_spike_v n) 0 = Ok [] /\
  vmin [] = Raise RuntimeError /\
  KWTA.forward (Some 0%Z) n = Raise RuntimeError.
Proof.
  intros H. split; [reflexivity|].
  assert (Htop : topk (KWTA.will_spike_v n) 0 = Ok []).
  { unfold topk. simpl.
    destruct (0 <=? Z.of_nat (length (KWTA.will_spike_v n)))%Z eqn:E; [reflexivity|lia]. }
  split; [exact Htop|]. split; [reflexivity|].
  unfold KWTA.forward.
  destruct (Z.of_nat (bsum (KWTA.will_spike n)) <=? 0)%Z eqn:E; [lia|].
  unfold KWTA.min_value. rewrite Htop. reflexivity.
Qed.

Lemma KWTA_zero_k_fails_at_step_witness :
  KWTA.forward (Some 0%Z) (pop4 [-50; -52; -54; -60]) = Raise RuntimeError.
Proof.
  apply (KWTA_zero_k_fails_at_step (pop4 [-50; -52; -54; -60])).
  vm_compute. lia.
Defined.

(** C3 does not hold of the code. With [k = 2] and three neurons at or
    above the threshold [-55], the step also overwrites the potential of
    the fourth neuron, which is below the threshold ([-60]), with
    [v_reset = -65]: its masked margin [0] is below the second largest
    margin [3]. *)
Theorem KWTA_resets_neuron_below_threshold :
  let n := pop4 [-50; -52; -54; -60] in
  bsum (KWTA.will_spike n) = 3%nat /\
  nth_error (KWTA.will_spike n) 3 = Some false /\
  KWTA.will_spike_v n = [1 * (-50 - -55); 1 * (-52 - -55); 1 * (-54 - -55);
                         0 * (-60 - -55)] /\
  KWTA.min_value 2 n = Ok (1 * (-52 - -55)) /\
  KWTA.forward (Some 2%Z) n = Ok (pop4 [-50; -52; -65; -65]).
Proof.
  cbv zeta. repeat split.
Qed.

(** ** KWTA: the k-th largest margin *)

Section Counting.

Context {A : Type}.


Lemma count_app (p : A -> bool) (l1 l2 : list A) :
  count p (l1 ++ l2) = (count p l1 + count p l2)%nat.
Proof. unfold count. rewrite filter_app, length_app. reflexivity. Qed.

Lemma count_Permutation (p : A -> bool) (l l' : list A) :
  Permutation l l' -> count p l = count p l'.
Proof.
  unfold count. induction 1 as [|x l l' _ IH|x y l|l l' l'' _ IH1 _ IH2]; simpl.
  - reflexivity.
  - destruct (p x); simpl; rewrite IH; reflexivity.
  - destruct (p x), (p y); reflexivity.
  - rewrite IH1. exact IH2.
Qed.

Lemma count_le_length (p : A -> bool) (l : list A) : (count p l <= length l)%nat.
Proof. apply filter_length_le. Qed.

Lemma count_all (p : A -> bool) (l : list A) :
  (forall x, In x l -> p x = true) -> count p l = length l.
Proof.
  unfold count. induction l as [|a l IH]; intros H; simpl; [reflexivity|].
  rewrite (H a (or_introl eq_refl)). simpl. rewrite IH; auto.
  intros x Hx. apply H. right. exact Hx.
Qed.

Lemma count_none (p : A -> bool) (l : list A) :
  (forall x, In x l -> p x = false) -> count p l = 0%nat.
Proof.
  unfold count. induction l as [|a l IH]; intros H; simpl; [reflexivity|].
  rewrite (H a (or_introl eq_refl)). apply IH.
  intros x Hx. apply H. right. exact Hx.
Qed.

Lemma count_lt_length (p : A -> bool) (l : list A) (a : A) :
  In a l -> p a = false -> (count p l < length l)%nat.
Proof.
  unfold count. induction l as [|b l IH]; intros Hin Hp; [destruct Hin|].
  simpl. destruct Hin as [->|Hin].
  - rewrite Hp. pose proof (filter_length_le p l). lia.
  - specialize (IH Hin Hp). destruct (p b); simpl; lia.
Qed.

Lemma count_map {B : Type} (f : A -> B) (p : B -> bool) (l : list A) :
  count p (map f l) = count (fun x => p (f x)) l.
Proof.
  unfold count. induction l as [|a l IH]; simpl; [reflexivity|].
  destruct (p (f a)); simpl; rewrite IH; reflexivity.
Qed.


End Counting.

Lemma bsum_map {A : Type} (p : A -> bool) (l : list A) :
  bsum (map p l) = count p l.
Proof.
  unfold bsum, count. induction l as [|a l IH]; simpl; [reflexivity|].
  destruct (p a); simpl; rewrite IH; reflexivity.
Qed.

Lemma map2_map_map {A B C D : Type} (f : B -> C -> D) (g : A -> B) (h : A -> C)
      (l : list A) :
  map2 f (map g l) (map h l) = map (fun x => f (g x) (h x)) l.
Proof.
  induction l as [|a l IH]; simpl; [reflexivity|]. rewrite IH. reflexivity.
Qed.

Lemma map2_map_r {A B C : Type} (f : A -> B -> C) (h : A -> B) (l : list A) :
  map2 f l (map h l) = map (fun x => f x (h x)) l.
Proof.
  induction l as [|a l IH]; simpl; [reflexivity|]. rewrite IH. reflexivity.
Qed.

(** *** Sorting *)

Lemma insert_desc_Permutation (x : Q) (l : vec) :
  Permutation (x :: l) (insert_desc x l).
Proof.
  induction l as [|y l IH]; simpl; [reflexivity|].
  destruct (Qle_bool y x); [reflexivity|].
  rewrite perm_swap. apply perm_skip, IH.
Qed.

Lemma sort_desc_Permutation (l : vec) : Permutation l (sort_desc l).
Proof.
  induction l as [|x l IH]; simpl; [constructor|].
  rewrite <- insert_desc_Permutation. apply perm_skip, IH.
Qed.

Lemma insert_desc_sorted (x : Q) (l : vec) :
  sorted l -> sorted (insert_desc x l).
Proof.
  induction l as [|y l IH]; simpl; [intros _; split; constructor|].
  intros [Hy Hl]. destruct (Qle_bool y x) eqn:E.
  - apply Qle_bool_iff in E. simpl. repeat split; trivial.
    constructor; [exact E|].
    apply Forall_forall. intros z Hz. unfold desc.
    rewrite Forall_forall in Hy. specialize (Hy z Hz). unfold desc in Hy.
    apply (Qle_trans _ y); assumption.
  - apply Qle_bool_false_iff in E. simpl. split; [|apply IH, Hl].
    apply Forall_forall. intros z Hz.
    apply (Permutation_in _ (Permutation_sym (insert_desc_Permutation x l))) in Hz.
    destruct Hz as [<-|Hz].
    + unfold desc. apply Qlt_le_weak, E.
    + rewrite Forall_forall in Hy. apply Hy, Hz.
Qed.

Lemma sort_desc_sorted (l : vec) : sorted (sort_desc l).
Proof.
  induction l as [|x l IH]; simpl; [exact I|]. apply insert_desc_sorted, IH.
Qed.

Lemma sorted_app (l1 l2 : vec) :
  sorted (l1 ++ l2) -> forall x y, In x l1 -> In y l2 -> y <= x.
Proof.
  induction l1 as [|a l1 IH]; simpl; intros Hs x y Hx Hy; [destruct Hx|].
  destruct Hs as [Ha Hs]. destruct Hx as [<-|Hx].
  - rewrite Forall_forall in Ha. apply (Ha y). apply in_or_app. right. exact Hy.
  - apply (IH Hs x y Hx Hy).
Qed.

(** *** The minimum of a tensor *)

Lemma Qmin_cases (x y : Q) : Qmin x y = x \/ Qmin x y = y.
Proof.
  unfold Qmin, GenericMinMax.gmin. destruct (x ?= y); auto.
Qed.

Lemma fold_Qmin_spec (t : vec) (a : Q) :
  In (fold_left Qmin t a) (a :: t) /\
  forall y, In y (a :: t) -> fold_left Qmin t a <= y.
Proof.
  revert a. induction t as [|b t IH]; intros a; simpl.
  - split; [left; reflexivity|]. intros y [<-|[]]. apply Qle_refl.
  - destruct (IH (Qmin a b)) as [Hin Hle]. split.
    + destruct Hin as [E|Hin]; [|right; right; exact Hin].
      rewrite <- E. destruct (Qmin_cases a b) as [-> | ->]; auto.
    + intros y [<-|[<-|Hy]].
      * apply (Qle_trans _ (Qmin a b)); [apply Hle; left; reflexivity|].
        apply Q.le_min_l.
      * apply (Qle_trans _ (Qmin a b)); [apply Hle; left; reflexivity|].
        apply Q.le_min_r.
      * apply Hle. right. exact Hy.
Qed.

Lemma vmin_spec (t : vec) :
  t <> [] ->
  exists m, vmin t = Ok m /\ In m t /\ forall y, In y t -> m <= y.
Proof.
  destruct t as [|a t]; [congruence|]. intros _.
  exists (fold_left Qmin t a). split; [reflexivity|]. apply fold_Qmin_spec.
Qed.

(** *** The least of the [k] largest entries

    For [1 <= k <= length l], the minimum of [topk l k] is an entry [m] of
    [l] such that fewer than [k] entries are above [m] and at least [k]
    entries are at or above it: the k-th largest entry. *)
Lemma topk_min_kth_largest (l : vec) (k : Z) :
  (1 <= k <= Z.of_nat (length l))%Z ->
  exists t m,
    topk l k = Ok t /\ vmin t = Ok m /\ In m l /\
    (Z.of_nat (count (Qlt_bool m) l) < k)%Z /\
    (k <= Z.of_nat (count (Qle_bool m) l))%Z.
Proof.
  intros Hk. unfold topk.
  destruct ((0 <=? k) && (k <=? Z.of_nat (length l)))%Z%bool eqn:E; [|lia].
  clear E. set (s := sort_desc l).
  pose proof (sort_desc_Permutation l) as Hperm. fold s in Hperm.
  pose proof (sort_desc_sorted l) as Hsorted. fold s in Hsorted.
  assert (Hlen : length s = length l) by (symmetry; apply Permutation_length, Hperm).
  set (kn := Z.to_nat k).
  assert (Hkn : (1 <= kn <= length s)%nat) by lia.
  assert (Hpre : length (firstn kn s) = kn) by (rewrite length_firstn; lia).
  destruct (vmin_spec (firstn kn s)) as (m & Hm & Hin & Hle).
  { intros E. rewrite E in Hpre. simpl in Hpre. lia. }
  exists (firstn kn s), m. split; [reflexivity|]. split; [exact Hm|].
  assert (Hsplit : s = firstn kn s ++ skipn kn s) by (symmetry; apply firstn_skipn).
  split; [|split].
  - apply (Permutation_in _ (Permutation_sym Hperm)).
    rewrite Hsplit. apply in_or_app. left. exact Hin.
  - rewrite (count_Permutation _ _ _ Hperm), Hsplit, count_app.
    assert (H1 : (count (Qlt_bool m) (firstn kn s) < kn)%nat).
    { rewrite <- Hpre at 2. apply (count_lt_length _ _ m Hin).
      apply Qlt_bool_false_iff, Qle_refl. }
    assert (H2 : count (Qlt_bool m) (skipn kn s) = 0%nat).
    { apply count_none. intros y Hy. apply Qlt_bool_false_iff.
      rewrite Hsplit in Hsorted. apply (sorted_app _ _ Hsorted m y Hin Hy). }
    lia.
  - rewrite (count_Permutation _ _ _ Hperm), Hsplit, count_app.
    assert (H1 : count (Qle_bool m) (firstn kn s) = kn).
    { rewrite <- Hpre at 2. apply count_all. intros y Hy.
      apply Qle_bool_iff, Hle, Hy. }
    lia.
Qed.

(** *** The step on one neuron *)

Lemma will_spike_count (n : NeuronGroup) :
  bsum (KWTA.will_spike n) = count (candidate n) (ng_v n).
Proof. unfold KWTA.will_spike, vge. apply bsum_map. Qed.

Lemma will_spike_v_map (n : NeuronGroup) :
  KWTA.will_spike_v n = map (masked_margin n) (ng_v n).
Proof.
  unfold KWTA.will_spike_v, KWTA.will_spike, vge.
  rewrite map2_map_map. reflexivity.
Qed.

Lemma reset_map (n : NeuronGroup) (m : Q) :
  masked_fill (ng_v n) (map (fun x => Qlt_bool x m) (KWTA.will_spike_v n))
              (ng_v_reset n) =
  map (fun x => if suppressed n m x then ng_v_reset n else x) (ng_v n).
Proof.
  rewrite will_spike_v_map, map_map. unfold masked_fill.
  apply (map2_map_r (fun x (b : bool) => if b then ng_v_reset n else x)).
Qed.

Lemma masked_margin_candidate (n : NeuronGroup) (x : Q) :
  candidate n x = true -> masked_margin n x == margin n x.
Proof.
  intros H. unfold masked_margin. rewrite H. simpl. ring.
Qed.

Lemma masked_margin_other (n : NeuronGroup) (x : Q) :
  candidate n x = false -> masked_margin n x == 0.
Proof.
  intros H. unfold masked_margin. rewrite H. simpl. ring.
Qed.

Lemma margin_candidate_nonneg (n : NeuronGroup) (x : Q) :
  candidate n x = true -> 0 <= margin n x.
Proof.
  unfold candidate, margin. intros H. apply Qle_bool_iff in H. lra.
Qed.

Lemma masked_margin_nonneg (n : NeuronGroup) (x : Q) : 0 <= masked_margin n x.
Proof.
  destruct (candidate n x) eqn:E.
  - rewrite (masked_margin_candidate n x E). apply margin_candidate_nonneg, E.
  - rewrite (masked_margin_other n x E). apply Qle_refl.
Qed.









(** A tie at the k-th largest margin: with [k = 2] and three candidates at
    the same potential, all three are kept and spike. *)
Example KWTA_tie_keeps_all_tied :
  let n := pop4 [-50; -50; -50; -60] in
  exists n', KWTA.forward (Some 2%Z) n = Ok n' /\
             ng_v n' = [-50; -50; -50; -65] /\
             bsum (ng_spikes (LIF._fire n')) = 3%nat.
Proof.
  cbv zeta. eexists. repeat split.
Qed.

(** ** The stimulus generator *)

Section Forall3_facts.

Context {A B C : Type} (P : A -> B -> C -> Prop).

Lemma Forall3_app la lb lc la' lb' lc' :
  Forall3 P la lb lc -> Forall3 P la' lb' lc' ->
  Forall3 P (la ++ la') (lb ++ lb') (lc ++ lc').
Proof.
  induction 1; simpl; [trivial|]. intros H'. constructor; auto.
Qed.

Lemma Forall3_tile la lb lc (times : nat) :
  Forall3 P la lb lc -> Forall3 P (tile la times) (tile lb times) (tile lc times).
Proof.
  intros H. unfold tile. induction times as [|t IH]; simpl; [constructor|].
  apply Forall3_app; assumption.
Qed.

Lemma Forall3_repeat a b c (n : nat) :
  P a b c -> Forall3 P (repeat a n) (repeat b n) (repeat c n).
Proof.
  intros H. induction n as [|n IH]; simpl; constructor; assumption.
Qed.

Lemma Forall3_repeat_any a b (lc : list C) :
  (forall c, P a b c) ->
  Forall3 P (repeat a (length lc)) (repeat b (length lc)) lc.
Proof.
  intros H. induction lc as [|c lc IH]; simpl; constructor; auto.
Qed.

Lemma Forall3_nth_error la lb lc (t : nat) (b : B) :
  Forall3 P la lb lc -> nth_error lb t = Some b ->
  exists a c, nth_error la t = Some a /\ nth_error lc t = Some c /\ P a b c.
Proof.
  intros H. revert t. induction H as [|a0 b0 c0 la lb lc H0 _ IH]; intros t.
  - destruct t; discriminate.
  - destruct t as [|t]; simpl.
    + intros [= <-]. exists a0, c0. auto.
    + apply IH.
Qed.

Lemma Forall3_length la lb lc :
  Forall3 P la lb lc -> length la = length lb /\ length lb = length lc.
Proof.
  induction 1 as [|? ? ? ? ? ? _ _ [IH1 IH2]]; simpl; auto.
Qed.

End Forall3_facts.

Lemma length_tile {A : Type} (t : list A) (times : nat) :
  length (tile t times) = (length t * times)%nat.
Proof.
  unfold tile. induction times as [|n IH]; simpl; [lia|].
  rewrite length_app, IH. lia.
Qed.

Lemma tile_app_one {A : Type} (t : list A) (times : nat) :
  tile t (S times) = t ++ tile t times.
Proof. reflexivity. Qed.

Lemma length_zeros2 (d n : nat) : length (zeros2 d n) = d.
Proof. apply repeat_length. Qed.

Lemma map_repeat {A B : Type} (f : A -> B) (a : A) (n : nat) :
  map f (repeat a n) = repeat (f a) n.
Proof. induction n as [|n IH]; simpl; [|rewrite IH]; reflexivity. Qed.

Lemma assign_rows_block {A : Type} (done block rest tail : list A) :
  length rest = length block ->
  assign_rows (done ++ rest ++ tail) (length done) (length done + length block) block
  = (done ++ block) ++ tail.
Proof.
  intros H. unfold assign_rows.
  rewrite firstn_app, firstn_all, Nat.sub_diag. simpl. rewrite app_nil_r.
  rewrite skipn_app, skipn_all2 by lia. simpl.
  replace (length done + length block - length done)%nat with (length rest) by lia.
  rewrite skipn_app, skipn_all, Nat.sub_diag. simpl.
  rewrite <- app_assoc. reflexivity.
Qed.

Section GeneratorFacts.

Context {G : TorchRng}.

Lemma length_draw_matrix (draw : rng_state -> Q * rng_state) (d n : nat)
      (g : rng_state) :
  length (fst (draw_matrix draw d n g)) = d.
Proof.
  revert g. induction d as [|d IH]; intros g; simpl; [reflexivity|].
  destruct (draw_row draw n g) as [r g1].
  specialize (IH g1). destruct (draw_matrix draw d n g1) as [m g2].
  simpl in *. rewrite IH. reflexivity.
Qed.

(** [set_signals] reads the object through its three parameters only, and
    the generator not at all: it seeds it first. Both signals have
    [signal_duration] rows. *)
Lemma set_signals_spec (self : InputGenerator) (sd n : nat) (seed : Z) :
  exists s0 s1 g',
    set_signals self sd n seed =
      (mkInputGenerator (ig_mean self) (ig_std self) (ig_threshold self)
         (Some (s0, s1)) (ig_random_signal_no self) (ig_signal_orders self), g') /\
    length s0 = sd /\ length s1 = sd /\
    forall other : InputGenerator,
      ig_mean other = ig_mean self -> ig_std other = ig_std self ->
      ig_threshold other = ig_threshold self ->
      set_signals other sd n seed =
        (mkInputGenerator (ig_mean self) (ig_std self) (ig_threshold self)
           (Some (s0, s1)) (ig_random_signal_no other) (ig_signal_orders other), g').
Proof.
  unfold set_signals.
  pose proof (length_draw_matrix rand1 sd n (manual_seed seed)) as Hu.
  unfold rand, normal.
  destruct (draw_matrix rand1 sd n (manual_seed seed)) as [u g1].
  pose proof (length_draw_matrix (normal1 (ig_mean self) (ig_std self)) sd n g1) as Hr.
  destruct (draw_matrix (normal1 (ig_mean self) (ig_std self)) sd n g1)
    as [r g2] eqn:Er.
  simpl in Hu, Hr. unfold matrix, vec in *.
  eexists _, _, g2. split; [reflexivity|].
  split; [|split].
  - rewrite length_map2, length_map. lia.
  - rewrite length_map2, length_map. lia.
  - intros other Hm Hs Ht. rewrite Hm, Hs, Ht, Er. reflexivity.
Qed.

Section Episodes.

Variables (sd rep rd n : nat) (s0 s1 : matrix).
Hypothesis Hs0 : length s0 = sd.
Hypothesis Hs1 : length s1 = sd.

Let D : nat := ((sd + rd) * rep + rd)%nat.

Lemma length_episode_input (c : bool) :
  length (episode_input (s0, s1) rep rd n c) = D.
Proof.
  unfold episode_input, get_signal_over_iter. simpl.
  rewrite length_app, length_tile, length_app, !length_zeros2.
  destruct c; rewrite ?Hs0, ?Hs1; reflexivity.
Qed.

Lemma length_episode_labels (c : bool) :
  length (get_signal_no_over_iter c sd rep rd) = D.
Proof.
  unfold get_signal_no_over_iter, ones.
  rewrite length_app, length_tile, length_app, !length_map, !repeat_length.
  reflexivity.
Qed.

Lemma length_episodes_input (cs : list bool) :
  length (episodes_input (s0, s1) rep rd n cs) = (length cs * D)%nat.
Proof.
  unfold episodes_input. induction cs as [|c cs IH]; simpl; [reflexivity|].
  rewrite length_app, length_episode_input, IH. reflexivity.
Qed.

Lemma length_episodes_labels (cs : list bool) :
  length (episodes_labels sd rep rd cs) = (length cs * D)%nat.
Proof.
  unfold episodes_labels. induction cs as [|c cs IH]; simpl; [reflexivity|].
  rewrite length_app, length_episode_labels, IH. reflexivity.
Qed.

Lemma episodes_input_snoc (cs : list bool) (c : bool) :
  episodes_input (s0, s1) rep rd n (cs ++ [c]) =
  episodes_input (s0, s1) rep rd n cs ++ episode_input (s0, s1) rep rd n c.
Proof.
  unfold episodes_input. rewrite map_app, concat_app. simpl.
  rewrite app_nil_r. reflexivity.
Qed.

Lemma episodes_labels_snoc (cs : list bool) (c : bool) :
  episodes_labels sd rep rd (cs ++ [c]) =
  episodes_labels sd rep rd cs ++ get_signal_no_over_iter c sd rep rd.
Proof.
  unfold episodes_labels. rewrite map_app, concat_app. simpl.
  rewrite app_nil_r. reflexivity.
Qed.

(** The loop, from episode [length cs] on: the episodes played so far
    fill the head of the two tensors, zeros the rest. *)
Lemma loop_spec (cnt : nat) :
  forall (cs : list bool) (g : rng_state) (mu std thr : Q),
  exists cs' g',
    length cs' = cnt /\
    loop (loop_body sd rep rd n D) (seq (length cs) cnt)
         (mkLoop g
            (episodes_input (s0, s1) rep rd n cs ++ zeros2 (cnt * D) n)
            (mkInputGenerator mu std thr (Some (s0, s1))
               (episodes_labels sd rep rd cs ++ zeros (cnt * D)) cs)) =
    Ok (mkLoop g'
          (episodes_input (s0, s1) rep rd n (cs ++ cs'))
          (mkInputGenerator mu std thr (Some (s0, s1))
             (episodes_labels sd rep rd (cs ++ cs')) (cs ++ cs'))).
Proof.
  induction cnt as [|cnt IH]; intros cs g mu std thr.
  - exists [], g. split; [reflexivity|]. simpl.
    rewrite !app_nil_r. reflexivity.
  - cbn [seq loop]. unfold loop_body at 1. cbn [ls_self ls_rng ls_input
      ig_signals ig_mean ig_std ig_threshold ig_random_signal_no
      ig_signal_orders].
    destruct (rand1 g) as [u g1].
    set (c := Qlt_bool (1 # 2) u).
    cbn [signals_index bind].
    assert (Hin :
      assign_rows (episodes_input (s0, s1) rep rd n cs ++ zeros2 (S cnt * D) n)
        (length cs * D) (length cs * D + D)
        (get_signal_over_iter (if c then s1 else s0) rep rd n ++ zeros2 rd n)
      = episodes_input (s0, s1) rep rd n (cs ++ [c]) ++ zeros2 (cnt * D) n).
    { rewrite episodes_input_snoc.
      change (get_signal_over_iter (if c then s1 else s0) rep rd n ++ zeros2 rd n)
        with (episode_input (s0, s1) rep rd n c).
      rewrite <- (length_episodes_input cs).
      rewrite <- (length_episode_input c) at 2.
      replace (zeros2 (S cnt * D) n) with (zeros2 D n ++ zeros2 (cnt * D) n)
        by (unfold zeros2; rewrite <- repeat_app; reflexivity).
      apply assign_rows_block.
      rewrite length_zeros2, length_episode_input. reflexivity. }
    assert (Hno :
      assign_rows (episodes_labels sd rep rd cs ++ zeros (S cnt * D))
        (length cs * D) (length cs * D + D)
        (get_signal_no_over_iter c sd rep rd)
      = episodes_labels sd rep rd (cs ++ [c]) ++ zeros (cnt * D)).
    { rewrite episodes_labels_snoc.
      rewrite <- (length_episodes_labels cs).
      rewrite <- (length_episode_labels c) at 2.
      replace (zeros (S cnt * D)) with (zeros D ++ zeros (cnt * D))
        by (unfold zeros; rewrite <- repeat_app; reflexivity).
      apply assign_rows_block.
      unfold zeros. rewrite repeat_length, length_episode_labels. reflexivity. }
    rewrite Hin, Hno.
    destruct (IH (cs ++ [c]) g1 mu std thr) as (cs' & g' & Hlen & Hloop).
    rewrite length_app in Hloop. simpl in Hloop.
    rewrite Nat.add_1_r in Hloop.
    exists (c :: cs'), g'. split; [simpl; congruence|].
    rewrite Hloop, <- !app_assoc. reflexivity.
Qed.

End Episodes.

(** [get_random_signals] returns, and what it returns: the blocks of the
    episodes in the order of the chosen classes, for the signals that
    [set_signals] draws from the seed. *)
Lemma get_random_signals_spec (self : InputGenerator) (g : rng_state)
      (iter sd rep rd n : nat) (seed : Z) :
  exists s0 s1 cs g',
    length s0 = sd /\ length s1 = sd /\ length cs = iter /\
    forall (other : InputGenerator) (g0 : rng_state),
      ig_mean other = ig_mean self -> ig_std other = ig_std self ->
      ig_threshold other = ig_threshold self ->
      get_random_signals other g0 iter sd rep rd n seed =
      Ok (episodes_input (s0, s1) rep rd n cs,
          mkInputGenerator (ig_mean self) (ig_std self) (ig_threshold self)
            (Some (s0, s1)) (episodes_labels sd rep rd cs) cs,
          g').
Proof.
  set (self1 := mkInputGenerator (ig_mean self) (ig_std self) (ig_threshold self)
                  (ig_signals self) (ig_random_signal_no self) []).
  destruct (set_signals_spec self1 sd n seed) as (s0 & s1 & g1 & _ & H0 & H1 & Hset).
  destruct (loop_spec sd rep rd n s0 s1 H0 H1 iter [] g1
              (ig_mean self) (ig_std self) (ig_threshold self))
    as (cs & g' & Hlen & Hloop).
  exists s0, s1, cs, g'. repeat split; trivial.
  intros other g0 Hm Hs Ht. unfold get_random_signals.
  rewrite (Hset (mkInputGenerator (ig_mean other) (ig_std other) (ig_threshold other)
                   (ig_signals other) (ig_random_signal_no other) []) Hm Hs Ht).
  cbn [ig_mean ig_std ig_threshold ig_signals ig_random_signal_no ig_signal_orders
       self1].
  simpl in Hloop.
  replace (((sd + rd) * rep + rd) * iter)%nat
    with (iter * ((sd + rd) * rep + rd))%nat by lia.
  rewrite Hloop. reflexivity.
Qed.

(** C7. Two calls of [get_random_signals] with the same seed and the same
    [(iter, signal_duration, signal_repeat, rest_duration,
    population_size)], on generators of the same parameters, return and
    produce the same input matrix, the same label vector and the same
    list of chosen classes, whatever the state of the random generator
    and the contents of the object before each call. *)
Theorem get_random_signals_reproducible
        (self1 self2 : InputGenerator) (g1 g2 : rng_state)
        (iter sd rep rd n : nat) (seed : Z) :
  ig_mean self1 = ig_mean self2 ->
  ig_std self1 = ig_std self2 ->
  ig_threshold self1 = ig_threshold self2 ->
  exists input self' g',
    get_random_signals self1 g1 iter sd rep rd n seed = Ok (input, self', g') /\
    get_random_signals self2 g2 iter sd rep rd n seed = Ok (input, self', g').
Proof.
  intros Hm Hs Ht.
  destruct (get_random_signals_spec self2 g2 iter sd rep rd n seed)
    as (s0 & s1 & cs & g' & _ & _ & _ & H).
  eexists _, _, g'. split.
  - apply (H self1 g1 Hm Hs Ht).
  - apply (H self2 g2 eq_refl eq_refl eq_refl).
Qed.

Lemma episode_aligned (sd rep rd n : nat) (s0 s1 : matrix) (c : bool) :
  length s0 = sd -> length s1 = sd ->
  Forall3 (timestep_ok n) (episode_layout sd rep rd)
          (get_signal_no_over_iter c sd rep rd)
          (episode_input (s0, s1) rep rd n c).
Proof.
  intros H0 H1.
  unfold episode_layout, get_signal_no_over_iter, episode_input,
    get_signal_over_iter, ones, zeros2.
  rewrite !map_repeat.
  assert (Hrest : Forall3 (timestep_ok n) (repeat RestBlock rd)
                          (repeat (1 * -1) rd) (repeat (zeros n) rd)).
  { apply Forall3_repeat. simpl. split; reflexivity. }
  apply Forall3_app; [|exact Hrest].
  apply Forall3_tile, Forall3_app; [|exact Hrest].
  assert (Hlen : length (if c then snd (s0, s1) else fst (s0, s1)) = sd)
    by (destruct c; assumption).
  rewrite <- Hlen. apply Forall3_repeat_any.
  intros r. simpl. destruct c; [right | left]; reflexivity.
Qed.

Lemma episodes_aligned (sd rep rd n : nat) (s0 s1 : matrix) (cs : list bool) :
  length s0 = sd -> length s1 = sd ->
  Forall3 (timestep_ok n) (layout (length cs) sd rep rd)
          (episodes_labels sd rep rd cs)
          (episodes_input (s0, s1) rep rd n cs).
Proof.
  intros H0 H1. unfold layout, episodes_labels, episodes_input.
  induction cs as [|c cs IH]; [constructor|].
  cbn [length map concat]. rewrite tile_app_one.
  apply Forall3_app; [|exact IH].
  apply episode_aligned; assumption.
Qed.

(** C8. [get_random_signals] returns, and in what it returns the label
    vector and the input matrix follow the layout of the blocks: a
    timestep of a signal block is labelled [0] or [1], a timestep of a
    rest block is labelled [-1] and its row is the zero row. So a
    timestep labelled [-1] is never in a signal block: it lies in a rest
    block and its row is zero. *)
Theorem rest_label_marks_rest_row (self : InputGenerator) (g : rng_state)
        (iter sd rep rd n : nat) (seed : Z) :
  exists input self' g',
    get_random_signals self g iter sd rep rd n seed = Ok (input, self', g') /\
    Forall3 (timestep_ok n) (layout iter sd rep rd)
            (ig_random_signal_no self') input /\
    forall (t : nat) (l : Q),
      nth_error (ig_random_signal_no self') t = Some l -> l == -1 ->
      nth_error (layout iter sd rep rd) t = Some RestBlock /\
      nth_error input t = Some (zeros n).
Proof.
  destruct (get_random_signals_spec self g iter sd rep rd n seed)
    as (s0 & s1 & cs & g' & H0 & H1 & Hlen & H).
  specialize (H self g eq_refl eq_refl eq_refl).
  pose proof (episodes_aligned sd rep rd n s0 s1 cs H0 H1) as Hal.
  rewrite Hlen in Hal.
  eexists _, _, g'. split; [exact H|]. cbn [ig_random_signal_no].
  split; [exact Hal|].
  intros t l Ht Hl.
  destruct (Forall3_nth_error _ _ _ _ t l Hal Ht) as (b & r & Hb & Hr & Hok).
  destruct b; simpl in Hok.
  - exfalso. destruct Hok as [E|E]; rewrite E in Hl; discriminate.
  - destruct Hok as [_ ->]. split; assumption.
Qed.

End GeneratorFacts.

Lemma get_random_signals_reproducible_witness :
  exists input self' g',
    get_random_signals (G := toy_rng) (__init__ 0 1 (1 # 2)) 5%Z 2 1 2 1 3 42 =
      Ok (input, self', g') /\
    get_random_signals (G := toy_rng)
      (mkInputGenerator 0 1 (1 # 2) (Some ([[1]], [[2]])) [3] [true]) 77%Z
      2 1 2 1 3 42 = Ok (input, self', g').
Proof.
  apply (get_random_signals_reproducible (G := toy_rng)
           (__init__ 0 1 (1 # 2))
           (mkInputGenerator 0 1 (1 # 2) (Some ([[1]], [[2]])) [3] [true])
           5%Z 77%Z 2 1 2 1 3 42); reflexivity.
Defined.

Lemma rest_label_marks_rest_row_witness :
  exists input self' g',
    get_random_signals (G := toy_rng) (__init__ 0 1 (1 # 2)) 5%Z 2 1 2 1 3 42 =
      Ok (input, self', g') /\
    nth_error (ig_random_signal_no self') 1 = Some (1 * -1) /\
    nth_error (layout 2 1 2 1) 1 = Some RestBlock /\
    nth_error input 1 = Some (zeros 3).
Proof.
  destruct (rest_label_marks_rest_row (G := toy_rng) (__init__ 0 1 (1 # 2))
              5%Z 2 1 2 1 3 42) as (input & self' & g' & Hrun & _ & H).
  exists input, self', g'. split; [exact Hrun|].
  assert (Hl : nth_error (ig_random_signal_no self') 1 = Some (1 * -1)).
  { vm_compute in Hrun. injection Hrun as _ <- _. reflexivity. }
  split; [exact Hl|]. apply (H 1%nat (1 * -1) Hl). reflexivity.
Defined.

(** ** The end-to-end run without input *)

Lemma all_zero_zeros (n : nat) : all_zero (zeros n).
Proof. apply Forall_forall. intros x Hx. apply repeat_spec in Hx. subst. reflexivity. Qed.

Lemma all_zero_map2 (f : Q -> Q -> Q) (a b : vec) :
  (forall x y, x == 0 -> y == 0 -> f x y == 0) ->
  all_zero a -> all_zero b -> all_zero (map2 f a b).
Proof.
  intros Hf Ha. revert b. induction Ha as [|x a Hx _ IH]; intros b Hb; simpl.
  - constructor.
  - destruct Hb as [|y b Hy Hb]; constructor; auto.
    apply IH, Hb.
Qed.

Lemma all_zero_vadd (a b : vec) : all_zero a -> all_zero b -> all_zero (vadd a b).
Proof. apply all_zero_map2. intros x y -> ->. reflexivity. Qed.

Lemma all_zero_vsub (a b : vec) : all_zero a -> all_zero b -> all_zero (vsub a b).
Proof. apply all_zero_map2. intros x y -> ->. reflexivity. Qed.

Lemma dot_zero (r s : vec) : all_zero s -> dot r s == 0.
Proof.
  unfold dot. intros Hs. revert r. induction Hs as [|y s Hy _ IH]; intros [|x r]; simpl;
    try reflexivity.
  rewrite IH, Hy. ring.
Qed.

Lemma all_zero_matmul (W : matrix) (s : vec) : all_zero s -> all_zero (matmul W s).
Proof.
  intros Hs. unfold matmul. apply Forall_map, Forall_forall. intros r _.
  apply dot_zero, Hs.
Qed.

Lemma all_zero_no_spikes (size : nat) : all_zero (map b2q (repeat false size)).
Proof. rewrite map_repeat. apply (all_zero_zeros size). Qed.

Lemma Forall2_nth_error {A B : Type} (R : A -> B -> Prop) (la : list A) (lb : list B)
      (j : nat) (a : A) :
  Forall2 R la lb -> nth_error la j = Some a ->
  exists b, nth_error lb j = Some b /\ R a b.
Proof.
  intros H. revert j. induction H as [|x y la lb Hxy _ IH]; intros [|j]; simpl;
    try discriminate.
  - intros [= <-]. eauto.
  - apply IH.
Qed.

Lemma Forall2_nth_error_r {A B : Type} (R : A -> B -> Prop) (la : list A) (lb : list B)
      (j : nat) (b : B) :
  Forall2 R la lb -> nth_error lb j = Some b ->
  exists a, nth_error la j = Some a /\ R a b.
Proof.
  intros H. revert j. induction H as [|x y la lb Hxy _ IH]; intros [|j]; simpl;
    try discriminate.
  - intros [= <-]. eauto.
  - apply IH.
Qed.

Lemma Forall2_update {A B : Type} (R : A -> B -> Prop) (la : list A) (lb : list B)
      (j : nat) (a : A) (b : B) :
  Forall2 R la lb -> nth_error la j = Some a -> R a b ->
  Forall2 R la (update lb j b).
Proof.
  intros H. revert j. induction H as [|x y la lb Hxy H IH]; intros [|j]; simpl;
    try discriminate.
  - intros [= <-] Hab. constructor; assumption.
  - intros Hj Hab. constructor; [assumption|]. apply IH; assumption.
Qed.

Lemma length_update {A : Type} (l : list A) (j : nat) (a : A) :
  length (update l j a) = length l.
Proof.
  revert j. induction l as [|x l IH]; intros [|j]; simpl; auto.
Qed.

Section QuietRun.

Variable specs : list (lif_config * nat).
Variable duration : nat.
Variable syns : list SynapseGroup.

Let sizes : list nat := map snd specs.

Hypothesis syns_fit : Forall (fits sizes) syns.

Lemma nth_error_sizes (j size : nat) :
  nth_error sizes j = Some size ->
  exists c, nth_error specs j = Some (c, size).
Proof.
  unfold sizes. rewrite nth_error_map.
  destruct (nth_error specs j) as [[c s]|]; simpl; [|discriminate].
  intros [= <-]. eauto.
Qed.

(** With no spike anywhere, the synaptic current that a synapse group
    delivers is zero in every entry. *)
Lemma accumulate_quiet (op : vec -> vec -> vec) (pops : list NeuronGroup)
      (ss : list SynapseGroup) (size : nat) :
  (forall a b, all_zero a -> all_zero b -> all_zero (op a b)) ->
  (forall a b, length (op a b) = Nat.min (length a) (length b)) ->
  Forall2 quiet specs pops ->
  Forall (fits sizes) ss ->
  Forall (fun s => nth_error sizes (sg_dst s) = Some size) ss ->
  forall n, all_zero (ng_I n) -> length (ng_I n) = size ->
  exists c, Synapse.accumulate op pops ss n = Ok (set_I n c) /\
            all_zero c /\ length c = size.
Proof.
  intros Hop Hlen Hpops Hfit Hdst.
  induction ss as [|s ss IH]; intros n Hz Hl; simpl.
  - exists (ng_I n). destruct n; auto.
  - inversion Hfit as [|? ? (Hrows & src_size & Hsrc & _) Hfit']; subst.
    inversion Hdst as [|? ? Hd Hdst']; subst.
    destruct (nth_error_sizes _ _ Hsrc) as (csrc & Hsrc').
    destruct (Forall2_nth_error _ _ _ _ _ Hpops Hsrc') as (src & Esrc & Hq).
    unfold Synapse._get_presynaptic_inputs. rewrite Esrc. cbn [bind].
    destruct Hq as (_ & _ & _ & Hsp & _).
    set (p := matmul (sg_W s) (map b2q (ng_spikes src))).
    assert (Hp : all_zero p).
    { apply all_zero_matmul. rewrite Hsp. apply all_zero_no_spikes. }
    assert (Hpl : length p = length (ng_I n)).
    { unfold p, matmul. rewrite length_map. congruence. }
    destruct (IH Hfit' Hdst' (set_I n (op (ng_I n) p))) as (c & Hc & Hcz & Hcl).
    + apply Hop; assumption.
    + cbn [ng_I set_I]. rewrite Hlen. lia.
    + exists c. rewrite Hc. auto.
Qed.

Lemma afferent_fit (j : nat) (tag : channel) (size : nat) :
  nth_error sizes j = Some size ->
  Forall (fits sizes) (afferent_synapses syns j tag) /\
  Forall (fun s => nth_error sizes (sg_dst s) = Some size)
         (afferent_synapses syns j tag).
Proof.
  intros Hj. unfold afferent_synapses. split; apply Forall_forall; intros s Hs;
    apply filter_In in Hs; destruct Hs as [Hin Hb].
  - rewrite Forall_forall in syns_fit. apply syns_fit, Hin.
  - apply andb_true_iff in Hb. destruct Hb as [Hb _].
    apply Nat.eqb_eq in Hb. rewrite Hb. exact Hj.
Qed.

Lemma synapse_forward_quiet (pops : list NeuronGroup) (j size : nat)
      (n : NeuronGroup) :
  Forall2 quiet specs pops ->
  nth_error sizes j = Some size ->
  all_zero (ng_I n) -> length (ng_I n) = size ->
  exists c, Synapse.forward pops syns j n = Ok (set_I n c) /\
            all_zero c /\ length c = size.
Proof.
  intros Hpops Hj Hz Hl. unfold Synapse.forward.
  destruct (afferent_fit j GLUTAMATE size Hj) as [Hf1 Hd1].
  destruct (afferent_fit j GABA size Hj) as [Hf2 Hd2].
  destruct (accumulate_quiet vadd pops _ size all_zero_vadd
              (fun a b => length_map2 Qplus a b) Hpops Hf1 Hd1 n Hz Hl)
    as (c1 & E1 & Hz1 & Hl1).
  rewrite E1. cbn [bind].
  destruct (accumulate_quiet vsub pops _ size all_zero_vsub
              (fun a b => length_map2 Qminus a b) Hpops Hf2 Hd2 (set_I n c1) Hz1 Hl1)
    as (c2 & E2 & Hz2 & Hl2).
  exists c2. rewrite E2. auto.
Qed.

Lemma input_forward_zero (size t : nat) (n : NeuronGroup) :
  ng_size n = size -> (1 <= t <= duration)%nat ->
  Input.forward (Some (get_zero_input size duration)) t n =
    Ok (set_I n (vadd (zeros size) (zeros size))).
Proof.
  intros Hsize Ht. unfold Input.forward, get_zero_input.
  replace (Z.of_nat t - 1)%Z with (Z.of_nat (t - 1)) by lia.
  rewrite (py_index_in_range _ _ (zeros size)).
  - cbn [bind Input._reset_inputs ng_I set_I]. rewrite Hsize.
    rewrite Nat.eqb_refl. reflexivity.
  - unfold zeros2. apply nth_error_repeat. lia.
Qed.

(** The membrane step of a quiet population under a zero current. *)
Lemma forward_quiet (spec : lif_config * nat) (n : NeuronGroup) (c : vec) :
  quiet spec n -> all_zero c -> length c = snd spec ->
  quiet spec (LIF.forward (set_I n c)).
Proof.
  intros (Hsize & Hlen & Hv & Hsp & Hvr & Hth & Hlt) Hc Hcl.
  assert (Hbelow : forall x, In x (ng_v n) -> Qle_bool (ng_threshold n) x = false).
  { intros x Hx. rewrite Forall_forall in Hv. specialize (Hv x Hx).
    apply Qle_bool_false_iff. rewrite Hv, Hvr, Hth. exact Hlt. }
  assert (Hspikes : vge (ng_v n) (ng_threshold n) = repeat false (snd spec)).
  { unfold vge. rewrite <- Hlen. clear - Hbelow.
    induction (ng_v n) as [|x l IH]; simpl; [reflexivity|].
    rewrite Hbelow by (left; reflexivity). f_equal.
    apply IH. intros y Hy. apply Hbelow. right. exact Hy. }
  assert (Hfired : ng_v (LIF._fire (set_I n c)) = ng_v n).
  { unfold LIF._fire, masked_fill.
    cbn [ng_v ng_spikes ng_threshold ng_v_reset set_v set_spikes set_I].
    rewrite Hspikes, <- Hlen. clear.
    induction (ng_v n) as [|x l IH]; simpl; [reflexivity|]. rewrite IH. reflexivity. }
  unfold quiet. split; [exact Hsize|].
  unfold LIF.forward. cbv zeta. cbn [ng_v set_v ng_size ng_spikes ng_v_rest
    ng_threshold].
  unfold LIF._dv_dt. rewrite Hfired.
  cbn [LIF._fire ng_I ng_v_rest ng_R ng_tau ng_spikes ng_threshold ng_size
       set_v set_spikes set_I].
  split; [|split; [|split; [exact Hspikes | auto]]].
  - unfold vadd. rewrite length_map2, length_map, length_map2, !length_map. lia.
  - clear Hbelow Hspikes Hfired Hlen Hcl.
    revert c Hc. induction Hv as [|x l Hx _ IH]; intros c Hc; simpl.
    + constructor.
    + destruct Hc as [|y c Hy Hc]; simpl; [constructor|].
      constructor; [|apply IH, Hc].
      rewrite Hx, Hy. unfold Qdiv. ring.
Qed.

Lemma population_step_quiet (pops : list NeuronGroup) (t j : nat)
      (spec : lif_config * nat) :
  Forall2 quiet specs pops ->
  nth_error specs j = Some spec ->
  (1 <= t <= duration)%nat ->
  exists pops',
    population_step (zero_inputs duration sizes) syns t pops j = Ok pops' /\
    Forall2 quiet specs pops'.
Proof.
  intros Hpops Hj Ht. unfold population_step.
  destruct (Forall2_nth_error _ _ _ _ _ Hpops Hj) as (n & En & Hq).
  assert (Hsz : nth_error sizes j = Some (snd spec)).
  { unfold sizes. rewrite nth_error_map, Hj. reflexivity. }
  rewrite En. unfold zero_inputs. rewrite nth_error_map, Hsz. cbn [option_map].
  rewrite (input_forward_zero (snd spec) t n (proj1 Hq) Ht). cbn [bind].
  set (c0 := vadd (zeros (snd spec)) (zeros (snd spec))).
  assert (Hz0 : all_zero c0) by (apply all_zero_vadd; apply all_zero_zeros).
  assert (Hl0 : length c0 = snd spec).
  { unfold c0, vadd, zeros. rewrite length_map2, !repeat_length. lia. }
  destruct (synapse_forward_quiet pops j (snd spec) (set_I n c0) Hpops Hsz Hz0 Hl0)
    as (c & Ec & Hz & Hl).
  rewrite Ec. cbn [bind]. eexists. split; [reflexivity|].
  apply (Forall2_update _ _ _ _ spec _ Hpops Hj).
  apply (forward_quiet spec n c Hq Hz Hl).
Qed.

Lemma population_steps_quiet (t : nat) (js : list nat) :
  (1 <= t <= duration)%nat ->
  Forall (fun j => (j < length specs)%nat) js ->
  forall pops, Forall2 quiet specs pops ->
  exists pops',
    population_steps (zero_inputs duration sizes) syns t js pops = Ok pops' /\
    Forall2 quiet specs pops'.
Proof.
  intros Ht Hjs. induction Hjs as [|j js Hj _ IH]; intros pops Hpops; simpl.
  - eauto.
  - destruct (nth_error specs j) as [spec|] eqn:Ej;
      [|apply nth_error_None in Ej; lia].
    destruct (population_step_quiet pops t j spec Hpops Ej Ht) as (pops1 & E1 & H1).
    rewrite E1. cbn [bind]. apply IH, H1.
Qed.

(** Every state of a run of at most [duration] iterations is quiet. *)
Lemma simulate_iterations_quiet (iter : nat) :
  forall (pops : list NeuronGroup) (done : nat),
  (done + iter <= duration)%nat ->
  Forall2 quiet specs pops ->
  exists pops',
    simulate_iterations iter
      (mkNetwork pops (zero_inputs duration sizes) syns done) =
    Ok (mkNetwork pops' (zero_inputs duration sizes) syns (done + iter)) /\
    Forall2 quiet specs pops'.
Proof.
  induction iter as [|iter IH]; intros pops done Hle Hpops.
  - exists pops. rewrite Nat.add_0_r. split; [reflexivity | exact Hpops].
  - cbn [simulate_iterations]. unfold simulate_iteration.
    cbn [net_pops net_inputs net_syns net_iteration].
    destruct (population_steps_quiet (S done) (seq 0 (length pops))) with (pops := pops)
      as (pops1 & E1 & H1); trivial; [lia | |].
    { apply Forall_forall. intros j Hj. apply in_seq in Hj.
      rewrite (Forall2_length Hpops). lia. }
    rewrite E1. cbn [bind].
    destruct (IH pops1 (S done)) as (pops2 & E2 & H2); [lia | exact H1 |].
    exists pops2. rewrite E2. split; [|exact H2].
    do 2 f_equal. lia.
Qed.

End QuietRun.

Lemma initialize_quiet (c : lif_config) (size : nat) (input : option matrix) :
  cfg_v_rest c < cfg_threshold c ->
  exists n, initialize_population c size input = Ok n /\ quiet (c, size) n.
Proof.
  intros Hlt. eexists. split; [reflexivity|].
  unfold quiet. cbn. repeat split; trivial.
  - unfold ones. rewrite length_map, repeat_length. reflexivity.
  - unfold ones. rewrite map_repeat. apply Forall_forall. intros x Hx.
    apply repeat_spec in Hx. subst. ring.
Qed.

Lemma quiet_below_threshold (spec : lif_config * nat) (n : NeuronGroup) :
  quiet spec n ->
  Forall (fun x => x == cfg_v_rest (fst spec) /\ x <= ng_v_rest n /\
                   x < ng_threshold n) (ng_v n).
Proof.
  intros (_ & _ & Hv & _ & Hvr & Hth & Hlt).
  eapply Forall_impl; [|exact Hv]. cbv beta. intros x Hx.
  split; [rewrite Hx, Hvr; reflexivity|].
  split; [rewrite Hx; apply Qle_refl | rewrite Hx, Hvr, Hth; exact Hlt].
Qed.

(** C9. The network of an excitatory population of 100 neurons and an
    inhibitory population of 25, with passive synapse groups that fit
    them and the zero waveform as input, runs its [ITER = 4000] iterations,
    and after every number [t <= 4000] of them no neuron of either
    population spikes: every potential still equals [v_rest = -65], below
    the threshold [-55]. *)
Theorem e2e_no_input_no_spike (syns : list SynapseGroup) (t : nat) :
  Forall (fits [EXCITATORY_NEURON_SIZE; INHIBITORY_NEURON_SIZE]) syns ->
  (t <= ITER)%nat ->
  exists net0 exc inh,
    e2e_network syns = Ok net0 /\
    simulate_iterations t net0 =
      Ok (mkNetwork [exc; inh] (net_inputs net0) syns t) /\
    ng_spikes exc = repeat false 100 /\
    ng_spikes inh = repeat false 25 /\
    length (ng_v exc) = 100%nat /\
    length (ng_v inh) = 25%nat /\
    Forall (fun x => x == -65 /\ x <= ng_v_rest exc /\ x < ng_threshold exc) (ng_v exc) /\
    Forall (fun x => x == -65 /\ x <= ng_v_rest inh /\ x < ng_threshold inh) (ng_v inh).
Proof.
  intros Hfit Ht.
  set (specs := [(EXC_CONFIG, EXCITATORY_NEURON_SIZE);
                 (INH_CONFIG, INHIBITORY_NEURON_SIZE)]).
  destruct (initialize_quiet EXC_CONFIG EXCITATORY_NEURON_SIZE
              (Some (get_zero_input EXCITATORY_NEURON_SIZE ITER)))
    as (exc0 & Eexc & Hexc); [reflexivity|].
  destruct (initialize_quiet INH_CONFIG INHIBITORY_NEURON_SIZE
              (Some (get_zero_input INHIBITORY_NEURON_SIZE ITER)))
    as (inh0 & Einh & Hinh); [reflexivity|].
  assert (H0 : Forall2 quiet specs [exc0; inh0]).
  { apply Forall2_cons; [exact Hexc|].
    apply Forall2_cons; [exact Hinh | apply Forall2_nil]. }
  destruct (simulate_iterations_quiet specs ITER syns Hfit t [exc0; inh0] 0%nat)
    as (pops & Erun & Hq); [simpl; lia | exact H0 |].
  inversion Hq as [|? exc ? rest Hqe Hq' ]; subst.
  inversion Hq' as [|? inh ? rest' Hqi Hq'']; subst.
  inversion Hq''; subst.
  exists (mkNetwork [exc0; inh0]
            (zero_inputs ITER [EXCITATORY_NEURON_SIZE; INHIBITORY_NEURON_SIZE])
            syns 0), exc, inh.
  split.
  { unfold e2e_network. rewrite Eexc. cbn [bind]. rewrite Einh. reflexivity. }
  split; [exact Erun|].
  pose proof (quiet_below_threshold _ _ Hqe) as Hbe.
  pose proof (quiet_below_threshold _ _ Hqi) as Hbi.
  destruct Hqe as (_ & Hle & _ & Hspe & _).
  destruct Hqi as (_ & Hli & _ & Hspi & _).
  repeat split; assumption.
Qed.

Lemma e2e_no_input_no_spike_witness :
  exists net0 exc inh,
    e2e_network sample_syns = Ok net0 /\
    simulate_iterations ITER net0 =
      Ok (mkNetwork [exc; inh] (net_inputs net0) sample_syns ITER) /\
    ng_spikes exc = repeat false 100 /\
    ng_spikes inh = repeat false 25.
Proof.
  destruct (e2e_no_input_no_spike sample_syns ITER)
    as (net0 & exc & inh & H0 & Hrun & He & Hi & _).
  - repeat constructor; cbn [fits sample_syns sg_W sg_src sg_dst].
    + exists EXCITATORY_NEURON_SIZE. split; [reflexivity|].
      apply Forall_forall. intros r Hr. apply repeat_spec in Hr. subst.
      apply repeat_length.
    + exists INHIBITORY_NEURON_SIZE. split; [reflexivity|].
      apply Forall_forall. intros r Hr. apply repeat_spec in Hr. subst.
      apply repeat_length.
  - apply Nat.le_refl.
  - exists net0, exc, inh. auto.
Defined.

(** * Further properties of the behaviours *)

(** ** LIF *)

Lemma inv_unit (tau : Q) : 1 <= tau -> 0 < / tau /\ / tau <= 1.
Proof.
  intros H. assert (Hpos : 0 < tau) by lra.
  pose proof (Qinv_lt_0_compat tau Hpos) as Hu.
  split; [exact Hu|].
  assert (E : tau * / tau == 1) by (apply Qmult_inv_r; lra).
  nra.
Qed.

(** The potential after one step, neuron by neuron. *)
Lemma forward_v_map2 (n : NeuronGroup) :
  ng_v (LIF.forward n) =
  map2 (fun x c =>
          let y := if Qle_bool (ng_threshold n) x then ng_v_reset n else x in
          y + ((ng_v_rest n - y) + ng_R n * c) / ng_tau n)
       (ng_v n) (ng_I n).
Proof.
  unfold LIF.forward, LIF._dv_dt, LIF._fire, masked_fill, vadd, vge.
  cbn [ng_v ng_I ng_spikes ng_threshold ng_v_reset ng_v_rest ng_R ng_tau
       set_v set_spikes].
  generalize (ng_I n) as cs. induction (ng_v n) as [|x l IH]; intros cs.
  - reflexivity.
  - destruct cs as [|c cs]; [reflexivity|]. simpl. rewrite IH. reflexivity.
Qed.

Lemma vge_all_below (t : vec) (c : Q) :
  Forall (fun x => x < c) t -> vge t c = repeat false (length t).
Proof.
  induction 1 as [|x t Hx _ IH]; simpl; [reflexivity|].
  apply Qle_bool_false_iff in Hx. rewrite Hx, IH. reflexivity.
Qed.

Lemma vge_all_above (t : vec) (c : Q) :
  Forall (fun x => c <= x) t -> vge t c = repeat true (length t).
Proof.
  induction 1 as [|x t Hx _ IH]; simpl; [reflexivity|].
  apply Qle_bool_iff in Hx. rewrite Hx, IH. reflexivity.
Qed.

Lemma initialize_v (c : lif_config) (n : NeuronGroup) :
  Forall (fun x => x == cfg_v_rest c) (ng_v (LIF.initialize c n)) /\
  length (ng_v (LIF.initialize c n)) = ng_size n.
Proof.
  cbn [LIF.initialize ng_v]. unfold ones. rewrite map_repeat. split.
  - apply Forall_forall. intros x Hx. apply repeat_spec in Hx. subst. ring.
  - apply repeat_length.
Qed.

(** X1. After [LIF.initialize] every potential equals [v_rest] and no
    neuron spikes. The first membrane step then decides on the parameters
    alone, whatever the current: no neuron spikes when [v_rest] is below
    the threshold, and every neuron does when it is not. *)
Theorem LIF_initialize_rest_state (c : lif_config) (n : NeuronGroup) (cur : vec) :
  let n0 := LIF.initialize c n in
  length (ng_v n0) = ng_size n /\
  Forall (fun x => x == cfg_v_rest c) (ng_v n0) /\
  ng_spikes n0 = repeat false (ng_size n) /\
  (cfg_v_rest c < cfg_threshold c ->
   ng_spikes (LIF.forward (set_I n0 cur)) = repeat false (ng_size n)) /\
  (cfg_threshold c <= cfg_v_rest c ->
   ng_spikes (LIF.forward (set_I n0 cur)) = repeat true (ng_size n)).
Proof.
  intros n0. destruct (initialize_v c n) as [Hv Hlen]. fold n0 in Hv, Hlen.
  split; [exact Hlen|]. split; [exact Hv|]. split; [reflexivity|].
  split; intros H; rewrite forward_spikes, <- Hlen;
    change (ng_v (set_I n0 cur)) with (ng_v n0);
    change (ng_threshold (set_I n0 cur)) with (cfg_threshold c).
  - apply vge_all_below. eapply Forall_impl; [|exact Hv].
    cbv beta. intros x Hx. rewrite Hx. exact H.
  - apply vge_all_above. eapply Forall_impl; [|exact Hv].
    cbv beta. intros x Hx. rewrite Hx. exact H.
Qed.

Lemma LIF_initialize_rest_state_witness :
  ng_spikes (LIF.forward (set_I (LIF.initialize EXC_CONFIG (new_group 3)) [9; 9; 9]))
  = repeat false 3.
Proof.
  apply (LIF_initialize_rest_state EXC_CONFIG (new_group 3) [9; 9; 9]).
  reflexivity.
Defined.

(** X2. The membrane step keeps the shape and touches nothing but [v] and
    [spikes]: with a current of the population's length, [v] and [spikes]
    keep that length, and the current, the trace and the parameters are
    the ones before the step. *)
Theorem LIF_forward_frame (n : NeuronGroup) :
  length (ng_I n) = length (ng_v n) ->
  let n' := LIF.forward n in
  length (ng_v n') = length (ng_v n) /\
  length (ng_spikes n') = length (ng_v n) /\
  ng_I n' = ng_I n /\ ng_trace n' = ng_trace n /\ ng_size n' = ng_size n /\
  (ng_v_rest n', ng_v_reset n', ng_tau n', ng_R n', ng_threshold n') =
  (ng_v_rest n, ng_v_reset n, ng_tau n, ng_R n, ng_threshold n).
Proof.
  intros H n'. subst n'. rewrite forward_v_map2, length_map2, H, Nat.min_id.
  rewrite forward_spikes. unfold vge. rewrite length_map.
  repeat split.
Qed.

Lemma LIF_forward_frame_witness :
  length (ng_v (LIF.forward (pop3 [-50; -60; -55] [1; 3; 0]))) = 3%nat.
Proof.
  apply (LIF_forward_frame (pop3 [-50; -60; -55] [1; 3; 0])). reflexivity.
Defined.

(** ** Synapse *)

Lemma nth_error_map2_inv {A B C : Type} (f : A -> B -> C) (l : list A) (m : list B)
      (i : nat) (y : C) :
  nth_error (map2 f l m) i = Some y ->
  exists a b, nth_error l i = Some a /\ nth_error m i = Some b /\ y = f a b.
Proof.
  revert m i. induction l as [|x l IH]; intros [|c m] [|i]; simpl; try discriminate.
  - intros [= <-]. eauto.
  - apply IH.
Qed.

Lemma pointwise_refl (R : Q -> Q -> Prop) (a : vec) :
  (forall x, R x x) -> pointwise R a a.
Proof. intros HR i y Hy. eauto. Qed.

Lemma pointwise_trans (R : Q -> Q -> Prop) (a b c : vec) :
  (forall x y z, R x y -> R y z -> R x z) ->
  pointwise R a b -> pointwise R b c -> pointwise R a c.
Proof.
  intros HR Hab Hbc i z Hz.
  destruct (Hbc i z Hz) as (y & Hy & Ryz).
  destruct (Hab i y Hy) as (x & Hx & Rxy). eauto.
Qed.

Lemma pointwise_op (R : Q -> Q -> Prop) (P : Q -> Prop) (f : Q -> Q -> Q)
      (a p : vec) :
  (forall x c, P c -> R x (f x c)) -> Forall P p -> pointwise R a (map2 f a p).
Proof.
  intros Hf Hp i y Hy.
  destruct (nth_error_map2_inv _ _ _ _ _ Hy) as (x & c & Hx & Hc & ->).
  exists x. split; [exact Hx|]. apply Hf.
  rewrite Forall_forall in Hp. apply Hp. apply (nth_error_In _ _ Hc).
Qed.



Lemma b2q_silent (bs : bvec) :
  Forall (fun b : bool => b = false) bs -> all_zero (map b2q bs).
Proof.
  intros H. apply Forall_map. eapply Forall_impl; [|exact H].
  cbv beta. intros b ->. reflexivity.
Qed.

(** What [accumulate] does to a population: only its current changes, and
    it changes entry by entry along [R] when each contribution does. *)
Lemma accumulate_pointwise (R : Q -> Q -> Prop) (P : Q -> Prop)
      (f : Q -> Q -> Q) (pops : list NeuronGroup) (ss : list SynapseGroup) :
  (forall x, R x x) ->
  (forall x y z, R x y -> R y z -> R x z) ->
  (forall x c, P c -> R x (f x c)) ->
  (forall s src, In s ss -> nth_error pops (sg_src s) = Some src ->
                 Forall P (matmul (sg_W s) (map b2q (ng_spikes src)))) ->
  forall n n',
    Synapse.accumulate (map2 f) pops ss n = Ok n' ->
    n' = set_I n (ng_I n') /\ pointwise R (ng_I n) (ng_I n').
Proof.
  intros Hrefl Htrans Hf. induction ss as [|s ss IH]; intros Hc n n' H; simpl in H.
  - injection H as <-. split; [destruct n; reflexivity | apply pointwise_refl, Hrefl].
  - unfold Synapse._get_presynaptic_inputs in H.
    destruct (nth_error pops (sg_src s)) as [src|] eqn:Es; [|discriminate].
    cbn [bind] in H. apply IH in H.
    + destruct H as [E Hp]. split; [rewrite E; reflexivity|].
      apply (pointwise_trans R _ _ _ Htrans) with (2 := Hp).
      apply (pointwise_op R P f); [exact Hf|].
      apply (Hc s src); [left; reflexivity | exact Es].
    + intros s' src' Hin. apply Hc. right. exact Hin.
Qed.

Lemma pointwise_Forall2 (R : Q -> Q -> Prop) (a b : vec) :
  pointwise R a b -> length a = length b -> Forall2 R a b.
Proof.
  revert b. induction a as [|x a IH]; intros [|y b] Hp Hlen; simpl in Hlen;
    try discriminate; constructor.
  - destruct (Hp 0%nat y eq_refl) as (x' & Hx & Hr). injection Hx as <-. exact Hr.
  - apply IH; [|congruence]. intros i z Hz. apply (Hp (S i) z Hz).
Qed.

(** With groups that fit, [accumulate] returns and the current keeps its
    length. *)
Lemma accumulate_returns (f : Q -> Q -> Q) (pops : list NeuronGroup)
      (ss : list SynapseGroup) :
  forall n, Forall (well_shaped pops (length (ng_I n))) ss ->
  exists n', Synapse.accumulate (map2 f) pops ss n = Ok n' /\
             length (ng_I n') = length (ng_I n).
Proof.
  induction ss as [|s ss IH]; intros n H; simpl.
  - eauto.
  - inversion H as [|? ? (Hrows & src & Hsrc & _) Hrest]; subst.
    unfold Synapse._get_presynaptic_inputs. rewrite Hsrc. cbn [bind].
    set (p := matmul (sg_W s) (map b2q (ng_spikes src))).
    assert (Hlen : length (map2 f (ng_I n) p) = length (ng_I n)).
    { rewrite length_map2. unfold p, matmul. rewrite length_map, Hrows.
      apply Nat.min_id. }
    destruct (IH (set_I n (map2 f (ng_I n) p))) as (n' & E & Hl).
    + cbn [ng_I set_I]. rewrite Hlen. exact Hrest.
    + exists n'. split; [exact E|]. rewrite Hl. exact Hlen.
Qed.

Lemma afferent_well_shaped (pops : list NeuronGroup) (syns : list SynapseGroup)
      (j len : nat) (tag : channel) :
  (forall s, In s syns -> sg_dst s = j -> well_shaped pops len s) ->
  Forall (well_shaped pops len) (afferent_synapses syns j tag).
Proof.
  intros H. apply Forall_forall. intros s Hs. unfold afferent_synapses in Hs.
  apply filter_In in Hs. destruct Hs as [Hin Hb].
  apply andb_true_iff in Hb. destruct Hb as [Hb _]. apply Nat.eqb_eq in Hb.
  apply H; assumption.
Qed.



(** X6. In a network in which both tags occur, and for afferent groups
    that fit the populations: when no neuron of any population spikes,
    [Synapse.forward] returns and leaves the current as long as it was and
    every entry of it at its value, whatever the weights. *)
Theorem Synapse_forward_silent (pops : list NeuronGroup) (syns : list SynapseGroup)
        (j : nat) (n : NeuronGroup) :
  tag_present syns GLUTAMATE ->
  tag_present syns GABA ->
  (forall s, In s syns -> sg_dst s = j -> well_shaped pops (length (ng_I n)) s) ->
  silent pops ->
  exists n',
    Synapse.forward pops syns j n = Ok n' /\
    n' = set_I n (ng_I n') /\
    Forall2 Qeq (ng_I n) (ng_I n').
Proof.
  intros _ _ Hfit Hs. unfold Synapse.forward.
  destruct (accumulate_returns Qplus pops (afferent_synapses syns j GLUTAMATE) n
              (afferent_well_shaped _ _ _ _ GLUTAMATE Hfit)) as (n1 & E1 & L1).
  change (map2 Qplus) with vadd in E1. rewrite E1. cbn [bind].
  destruct (accumulate_returns Qminus pops (afferent_synapses syns j GABA) n1)
    as (n' & E2 & L2).
  { rewrite L1. apply afferent_well_shaped, Hfit. }
  change (map2 Qminus) with vsub in E2. rewrite E2.
  exists n'. split; [reflexivity|].
  assert (Hc : forall tag s src,
             In s (afferent_synapses syns j tag) ->
             nth_error pops (sg_src s) = Some src ->
             Forall (fun c => c == 0) (matmul (sg_W s) (map b2q (ng_spikes src)))).
  { intros tag s src _ Hsrc. apply all_zero_matmul, b2q_silent.
    unfold silent in Hs. rewrite Forall_forall in Hs.
    apply Hs. apply (nth_error_In _ _ Hsrc). }
  assert (Hadd : forall x c : Q, c == 0 -> x == x + c) by (intros x c ->; ring).
  assert (Hsub : forall x c : Q, c == 0 -> x == x - c) by (intros x c ->; ring).
  destruct (accumulate_pointwise Qeq (fun c => c == 0) Qplus pops _
              Qeq_refl Qeq_trans Hadd (Hc GLUTAMATE) n n1 E1) as [En1 H1].
  destruct (accumulate_pointwise Qeq (fun c => c == 0) Qminus pops _
              Qeq_refl Qeq_trans Hsub (Hc GABA) n1 n' E2) as [En' H2].
  split; [rewrite En', En1; reflexivity|].
  apply pointwise_Forall2.
  - apply (pointwise_trans Qeq _ _ _ Qeq_trans H1 H2).
  - rewrite L2. symmetry. exact L1.
Qed.

Lemma Synapse_forward_silent_witness :
  exists n', Synapse.forward store2_silent [syn_exc; syn_inh] 1
               (pop2 [false; false] [3; 4] [0; 0]) = Ok n' /\
             Forall2 Qeq [3; 4] (ng_I n').
Proof.
  destruct (Synapse_forward_silent store2_silent [syn_exc; syn_inh] 1
              (pop2 [false; false] [3; 4] [0; 0]))
    as (n' & Hrun & _ & Heq).
  - exists syn_exc. split; [left; reflexivity | reflexivity].
  - exists syn_inh. split; [right; left; reflexivity | reflexivity].
  - intros s [<-|[<-|[]]] Hd; [|discriminate Hd].
    split; [reflexivity|]. eexists. split; [reflexivity|].
    repeat constructor.
  - unfold silent, store2_silent.
    repeat (apply Forall_cons; [repeat (apply Forall_cons; [reflexivity|]);
                                apply Forall_nil|]).
    apply Forall_nil.
  - exists n'. split; [exact Hrun | exact Heq].
Defined.

(** ** Input *)

Lemma vadd_zeros (row : vec) : Forall2 Qeq (vadd (zeros (length row)) row) row.
Proof.
  induction row as [|x row IH]; simpl; constructor; [ring | exact IH].
Qed.

(** X7. Within the waveform, and for a row of the population's size, the
    injector returns and overwrites the current: the new current equals
    the row of this iteration, entry by entry, and does not depend on the
    current before the step; nothing else of the population changes. *)
Theorem Input_forward_overwrites (w : matrix) (t : nat) (n : NeuronGroup) (row : vec) :
  (1 <= t)%nat ->
  nth_error w (t - 1) = Some row ->
  length row = ng_size n ->
  exists cur,
    Input.forward (Some w) t n = Ok (set_I n cur) /\
    Forall2 Qeq cur row /\
    forall c : vec, Input.forward (Some w) t (set_I n c) = Ok (set_I n cur).
Proof.
  intros Ht Hrow Hlen. exists (vadd (zeros (length row)) row).
  assert (Hidx : py_index w (Z.of_nat t - 1) = Ok row).
  { replace (Z.of_nat t - 1)%Z with (Z.of_nat (t - 1)) by lia.
    apply py_index_in_range, Hrow. }
  assert (Hfw : forall c, Input.forward (Some w) t (set_I n c) =
                          Ok (set_I n (vadd (zeros (length row)) row))).
  { intros c. unfold Input.forward. rewrite Hidx. cbn [bind].
    cbn [Input._reset_inputs ng_I set_I ng_size].
    unfold zeros at 1. rewrite repeat_length, <- Hlen, Nat.eqb_refl.
    reflexivity. }
  split; [|split].
  - rewrite <- (Hfw (ng_I n)). destruct n; reflexivity.
  - apply vadd_zeros.
  - exact Hfw.
Qed.

Lemma Input_forward_overwrites_witness :
  exists cur,
    Input.forward (Some [[1; 2; 3]; [4; 5; 6]]) 2 (pop3 [-65; -65; -65] [9; 9; 9]) =
      Ok (set_I (pop3 [-65; -65; -65] [9; 9; 9]) cur) /\
    Forall2 Qeq cur [4; 5; 6].
Proof.
  destruct (Input_forward_overwrites [[1; 2; 3]; [4; 5; 6]] 2
              (pop3 [-65; -65; -65] [9; 9; 9]) [4; 5; 6])
    as (cur & H1 & H2 & _); [lia | reflexivity | reflexivity |].
  exists cur. split; assumption.
Defined.

(** ** Trace *)

Lemma nth_error_update_same {A : Type} (l : list A) (j : nat) (a x : A) :
  nth_error l j = Some x -> nth_error (update l j a) j = Some a.
Proof.
  revert j. induction l as [|y l IH]; intros [|j]; simpl; try discriminate; auto.
Qed.

Lemma update_update {A : Type} (l : list A) (j : nat) (a b : A) :
  update (update l j a) j b = update l j b.
Proof.
  revert j. induction l as [|y l IH]; intros [|j]; simpl; auto.
  rewrite IH. reflexivity.
Qed.

Lemma nth_error_update_other {A : Type} (l : list A) (j k : nat) (a : A) :
  j <> k -> nth_error (update l j a) k = nth_error l k.
Proof.
  revert j k. induction l as [|y l IH]; intros [|j] [|k] H; simpl; auto;
    try congruence.
Qed.

Lemma Forall_update {A : Type} (P : A -> Prop) (l : list A) (j : nat) (a : A) :
  Forall P l -> P a -> Forall P (update l j a).
Proof.
  intros H Ha. revert j. induction H as [|y l Hy H IH]; intros [|j]; simpl;
    try constructor; auto.
Qed.

(** X8. The trace step updates the source first and reads the destination
    from the store after that. For a group between two different
    populations each endpoint's trace is updated once, from its own state
    before the step; for a group from a population to itself the one trace
    is updated twice. *)
Theorem Trace_forward_endpoints (tau : Q) (pops : list NeuronGroup)
        (s : SynapseGroup) (src dst : NeuronGroup) :
  nth_error pops (sg_src s) = Some src ->
  nth_error pops (sg_dst s) = Some dst ->
  (sg_src s <> sg_dst s ->
   Trace.forward tau pops s =
     Ok (update (update pops (sg_src s) (Trace.bump tau src))
                (sg_dst s) (Trace.bump tau dst))) /\
  (sg_src s = sg_dst s ->
   Trace.forward tau pops s =
     Ok (update pops (sg_src s) (Trace.bump tau (Trace.bump tau src)))).
Proof.
  intros Hsrc Hdst. unfold Trace.forward, Trace._update_spike_trace, lookup.
  rewrite Hsrc. cbn [bind]. split; intros H.
  - rewrite (nth_error_update_other _ _ _ _ H), Hdst. reflexivity.
  - rewrite <- H, (nth_error_update_same _ _ _ _ Hsrc). cbn [bind].
    rewrite update_update. reflexivity.
Qed.

Lemma Trace_forward_endpoints_witness :
  Trace.forward 2 store2 syn_self =
    Ok (update store2 0 (Trace.bump 2 (Trace.bump 2 (pop2 [true; false] [0; 0] [1; 0])))) /\
  Trace.forward 2 store2 syn_exc =
    Ok (update (update store2 0 (Trace.bump 2 (pop2 [true; false] [0; 0] [1; 0])))
               1 (Trace.bump 2 (pop2 [false; false] [1; 1] [0; 2]))).
Proof.
  split.
  - apply (Trace_forward_endpoints 2 store2 syn_self
             (pop2 [true; false] [0; 0] [1; 0]) (pop2 [true; false] [0; 0] [1; 0])
             eq_refl eq_refl).
    reflexivity.
  - apply (Trace_forward_endpoints 2 store2 syn_exc
             (pop2 [true; false] [0; 0] [1; 0]) (pop2 [false; false] [1; 1] [0; 2])
             eq_refl eq_refl).
    discriminate.
Defined.

Lemma bump_bounded (tau : Q) (n : NeuronGroup) :
  1 <= tau -> trace_bounded tau n -> trace_bounded tau (Trace.bump tau n).
Proof.
  intros Htau H. destruct (inv_unit _ Htau) as [Hu0 Hu1].
  assert (E : tau * / tau == 1) by (apply Qmult_inv_r; lra).
  unfold trace_bounded, Trace.bump, Trace._get_trace_change, vadd in *.
  cbn [ng_trace set_trace]. apply Forall_forall. intros y Hy.
  apply In_nth_error in Hy. destruct Hy as [i Hy].
  destruct (nth_error_map2_inv _ _ _ _ _ Hy) as (x & d & Hx & Hd & ->).
  destruct (nth_error_map2_inv _ _ _ _ _ Hd) as (a & b & Ha & Hb & ->).
  rewrite nth_error_map, Hx in Ha. injection Ha as <-.
  rewrite nth_error_map in Hb.
  destruct (nth_error (ng_spikes n) i) as [sp|]; [|discriminate].
  injection Hb as <-.
  rewrite Forall_forall in H. specialize (H x (nth_error_In _ _ Hx)).
  destruct H as [H0 H1]. unfold Qdiv. set (u := / tau) in *.
  destruct sp; simpl; split; nra.
Qed.

(** X9. With [tau >= 1] the traces stay within [0, tau]: when every
    population of the store has its trace within these bounds, so has
    every population after a trace step, and the store keeps its
    length. *)
Theorem Trace_forward_bounded (tau : Q) (pops pops' : list NeuronGroup)
        (s : SynapseGroup) :
  1 <= tau ->
  Forall (trace_bounded tau) pops ->
  Trace.forward tau pops s = Ok pops' ->
  Forall (trace_bounded tau) pops' /\ length pops' = length pops.
Proof.
  intros Htau H Hfw. unfold Trace.forward, Trace._update_spike_trace, lookup in Hfw.
  destruct (nth_error pops (sg_src s)) as [src|] eqn:Es; [|discriminate].
  cbn [bind] in Hfw.
  set (pops1 := update pops (sg_src s) (Trace.bump tau src)) in *.
  assert (H1 : Forall (trace_bounded tau) pops1).
  { apply Forall_update; [exact H|]. apply bump_bounded; [exact Htau|].
    rewrite Forall_forall in H. apply H, (nth_error_In _ _ Es). }
  destruct (nth_error pops1 (sg_dst s)) as [dst|] eqn:Ed; [|discriminate].
  cbn [bind] in Hfw. injection Hfw as <-. split.
  - apply Forall_update; [exact H1|]. apply bump_bounded; [exact Htau|].
    rewrite Forall_forall in H1. apply H1, (nth_error_In _ _ Ed).
  - unfold pops1. rewrite !length_update. reflexivity.
Qed.

Lemma Trace_forward_bounded_witness :
  exists pops', Trace.forward 2 store2 syn_self = Ok pops' /\
                Forall (trace_bounded 2) pops'.
Proof.
  eexists. split; [reflexivity|].
  apply (Trace_forward_bounded 2 store2 _ syn_self).
  - discriminate.
  - unfold store2, trace_bounded. cbn.
    repeat constructor; discriminate.
  - reflexivity.
Defined.

(** ** WeightClip, further *)

Lemma shape_forward (c : WeightClip.t) (W : matrix) :
  shape (WeightClip.forward c W) = shape W.
Proof.
  unfold shape, WeightClip.forward. rewrite map_map.
  apply map_ext. intros r. apply length_map.
Qed.

(** X10. Once [WeightClip.initialize] has accepted the bounds, a clipping
    pass leaves every weight within [[w_min, w_max]], hence not negative,
    and keeps the shape of the matrix. *)
Theorem WeightClip_forward_bounds (lo hi : option Q) (c : WeightClip.t) (W : matrix) :
  WeightClip.initialize lo hi = Ok c ->
  entries (fun x => WeightClip.w_min c <= x /\ x <= WeightClip.w_max c)
          (WeightClip.forward c W) /\
  entries (fun x => 0 <= x) (WeightClip.forward c W) /\
  shape (WeightClip.forward c W) = shape W.
Proof.
  unfold WeightClip.initialize. cbv zeta.
  set (c0 := WeightClip.mk _ _).
  destruct (Qle_bool 0 (WeightClip.w_min c0)) eqn:E0; [|discriminate].
  destruct (Qlt_bool (WeightClip.w_min c0) (WeightClip.w_max c0)) eqn:E1;
    [|discriminate].
  simpl. intros [= <-].
  apply Qle_bool_iff in E0. apply Qlt_bool_iff in E1.
  pose proof (forward_in_range c0 W (Qlt_le_weak _ _ E1)) as Hin.
  split; [exact Hin|]. split; [|apply shape_forward].
  unfold entries. eapply Forall_impl; [|exact Hin]. cbv beta. intros r Hr.
  eapply Forall_impl; [|exact Hr]. cbv beta. intros x [Hx _].
  apply (Qle_trans _ _ _ E0 Hx).
Qed.

Lemma WeightClip_forward_bounds_witness :
  entries (fun x => 0 <= x) (WeightClip.forward (WeightClip.mk 0 1) [[-1; 1 # 2]; [3]]).
Proof.
  apply (WeightClip_forward_bounds None None (WeightClip.mk 0 1) [[-1; 1 # 2]; [3]]).
  reflexivity.
Defined.

Lemma clip_monotone (lo hi x y : Q) :
  x <= y -> WeightClip.clip lo hi x <= WeightClip.clip lo hi y.
Proof.
  intros H. unfold WeightClip.clip.
  apply Q.min_le_compat_r, Q.max_le_compat_r, H.
Qed.

(** X11. Clipping keeps the order of the weights: of two matrices of which
    one is entry by entry at most the other, the clipped ones are so too.
    For [w_min <= w_max] an entry at or below [w_min] becomes [w_min] and
    one at or above [w_max] becomes [w_max]. *)
Theorem WeightClip_forward_monotone (c : WeightClip.t) (W1 W2 : matrix) :
  Forall2 (Forall2 Qle) W1 W2 ->
  Forall2 (Forall2 Qle) (WeightClip.forward c W1) (WeightClip.forward c W2) /\
  (WeightClip.w_min c <= WeightClip.w_max c ->
   forall x,
     (x <= WeightClip.w_min c ->
      WeightClip.clip (WeightClip.w_min c) (WeightClip.w_max c) x == WeightClip.w_min c) /\
     (WeightClip.w_max c <= x ->
      WeightClip.clip (WeightClip.w_min c) (WeightClip.w_max c) x == WeightClip.w_max c)).
Proof.
  intros H. split.
  - unfold WeightClip.forward.
    induction H as [|r1 r2 W1 W2 Hr _ IH]; simpl; constructor; [|exact IH].
    induction Hr as [|x y r1 r2 Hxy _ IHr]; simpl; constructor; [|exact IHr].
    apply clip_monotone, Hxy.
  - intros Hb x. unfold WeightClip.clip. split; intros Hx.
    + rewrite (Q.max_r _ _ Hx). apply Q.min_l, Hb.
    + apply Q.min_r. apply (Qle_trans _ x); [exact Hx | apply Q.le_max_l].
Qed.

Lemma WeightClip_forward_monotone_witness :
  Forall2 (Forall2 Qle) (WeightClip.forward (WeightClip.mk 0 1) [[-1; 1 # 2]])
          (WeightClip.forward (WeightClip.mk 0 1) [[0; 3]]).
Proof.
  apply (WeightClip_forward_monotone (WeightClip.mk 0 1) [[-1; 1 # 2]] [[0; 3]]).
  repeat constructor; discriminate.
Defined.

(** ** KWTA, further *)

Lemma min_value_In (k : Z) (n : NeuronGroup) (m : Q) :
  KWTA.min_value k n = Ok m -> In m (KWTA.will_spike_v n).
Proof.
  unfold KWTA.min_value, topk.
  destruct ((0 <=? k) && (k <=? Z.of_nat (length (KWTA.will_spike_v n))))%Z%bool;
    [|discriminate].
  cbn [bind]. set (s := sort_desc (KWTA.will_spike_v n)).
  destruct (firstn (Z.to_nat k) s) as [|a t] eqn:E; [discriminate|].
  simpl. intros [= <-].
  apply (Permutation_in _ (Permutation_sym (sort_desc_Permutation _))). fold s.
  rewrite <- (firstn_skipn (Z.to_nat k) s), E. apply in_or_app. left.
  apply fold_Qmin_spec.
Qed.

Lemma forward_inv (k : Z) (n n' : NeuronGroup) :
  KWTA.forward (Some k) n = Ok n' ->
  (Z.of_nat (count (candidate n) (ng_v n)) <= k)%Z /\ n' = n \/
  (k < Z.of_nat (count (candidate n) (ng_v n)))%Z /\
  exists m, KWTA.min_value k n = Ok m /\
            n' = set_v n (map (fun x => if suppressed n m x then ng_v_reset n else x)
                              (ng_v n)).
Proof.
  unfold KWTA.forward. rewrite will_spike_count.
  destruct (Z.of_nat (count (candidate n) (ng_v n)) <=? k)%Z eqn:E.
  - intros [= <-]. left. split; [lia | reflexivity].
  - destruct (KWTA.min_value k n) as [m|] eqn:Em; [|discriminate].
    cbn [bind]. rewrite reset_map. intros [= <-]. right. split; [lia|]. eauto.
Qed.

(** X12. The outcomes of a KWTA step. Without [k] it raises a type error.
    With [k] it returns exactly when the candidates are at most [k] or [k]
    is positive; otherwise (more candidates than a [k] that is zero or
    negative) it raises a runtime error. *)
Theorem KWTA_forward_outcome (k : Z) (n : NeuronGroup) :
  let candidates := Z.of_nat (count (candidate n) (ng_v n)) in
  KWTA.forward None n = Raise TypeError /\
  ((candidates <= k \/ 0 < k)%Z -> exists n', KWTA.forward (Some k) n = Ok n') /\
  ((k < candidates /\ k <= 0)%Z -> KWTA.forward (Some k) n = Raise RuntimeError).
Proof.
  intros candidates. split; [reflexivity|]. split.
  - intros H. unfold KWTA.forward. rewrite will_spike_count. fold candidates.
    destruct (candidates <=? k)%Z eqn:E; [eauto|].
    destruct (topk_min_kth_largest (KWTA.will_spike_v n) k)
      as (t & m & Htop & Hmin & _).
    { rewrite will_spike_v_map, length_map.
      pose proof (count_le_length (candidate n) (ng_v n)). lia. }
    unfold KWTA.min_value. rewrite Htop. cbn [bind]. rewrite Hmin. cbn [bind]. eauto.
  - intros [Hlt Hk]. unfold KWTA.forward. rewrite will_spike_count. fold candidates.
    destruct (candidates <=? k)%Z eqn:E; [lia|].
    unfold KWTA.min_value, topk.
    destruct (0 <=? k)%Z eqn:E0.
    + assert (k = 0%Z) by lia. subst k. simpl.
      destruct (0 <=? Z.of_nat (length (KWTA.will_spike_v n)))%Z eqn:El; [|lia].
      reflexivity.
    + reflexivity.
Qed.

Lemma KWTA_forward_outcome_witness :
  (exists n', KWTA.forward (Some 1%Z) (pop4 [-50; -52; -54; -60]) = Ok n') /\
  KWTA.forward (Some (-2)%Z) (pop4 [-50; -52; -54; -60]) = Raise RuntimeError.
Proof.
  split.
  - apply (KWTA_forward_outcome 1 (pop4 [-50; -52; -54; -60])). right. reflexivity.
  - apply (KWTA_forward_outcome (-2) (pop4 [-50; -52; -54; -60])).
    vm_compute. split; [reflexivity | discriminate].
Defined.

(** X13. A KWTA step that returns changes nothing of the population but
    its potentials; their number stays, and each one is either what it was
    or [v_reset]. *)
Theorem KWTA_forward_frame (k : Z) (n n' : NeuronGroup) :
  KWTA.forward (Some k) n = Ok n' ->
  n' = set_v n (ng_v n') /\
  length (ng_v n') = length (ng_v n) /\
  Forall2 (fun x y => y = x \/ y = ng_v_reset n) (ng_v n) (ng_v n').
Proof.
  intros H. destruct (forward_inv k n n' H) as [[_ ->]|(_ & m & _ & ->)].
  - split; [destruct n; reflexivity|]. split; [reflexivity|].
    induction (ng_v n); constructor; auto.
  - cbn [ng_v set_v]. split; [reflexivity|]. split; [apply length_map|].
    clear H. induction (ng_v n) as [|x l IH]; simpl; [constructor|].
    constructor; [|exact IH].
    destruct (suppressed n m x); auto.
Qed.

Lemma KWTA_forward_frame_witness :
  exists n', KWTA.forward (Some 2%Z) (pop4 [-50; -52; -54; -60]) = Ok n' /\
             length (ng_v n') = 4%nat.
Proof.
  eexists. split; [reflexivity|].
  apply (KWTA_forward_frame 2 (pop4 [-50; -52; -54; -60]) _). reflexivity.
Defined.

Lemma masked_margin_monotone (n : NeuronGroup) (x y : Q) :
  x <= y -> masked_margin n x <= masked_margin n y.
Proof.
  intros H. destruct (candidate n x) eqn:Ex.
  - assert (Ey : candidate n y = true).
    { unfold candidate in *. apply Qle_bool_iff. apply Qle_bool_iff in Ex. lra. }
    rewrite (masked_margin_candidate n x Ex), (masked_margin_candidate n y Ey).
    unfold margin. lra.
  - rewrite (masked_margin_other n x Ex). apply masked_margin_nonneg.
Qed.

(** X14. The winner is never suppressed: a neuron at or above the
    threshold whose potential is the largest of the population keeps its
    potential through every KWTA step that returns. *)
Theorem KWTA_keeps_the_winner (k : Z) (n n' : NeuronGroup) (i : nat) (x : Q) :
  KWTA.forward (Some k) n = Ok n' ->
  nth_error (ng_v n) i = Some x ->
  (forall y, In y (ng_v n) -> y <= x) ->
  nth_error (ng_v n') i = Some x.
Proof.
  intros H Hx Hmax. destruct (forward_inv k n n' H) as [[_ ->]|(_ & m & Hm & ->)].
  - exact Hx.
  - cbn [ng_v set_v]. rewrite nth_error_map, Hx. cbn [option_map].
    apply min_value_In in Hm. rewrite will_spike_v_map in Hm.
    apply in_map_iff in Hm. destruct Hm as (z & <- & Hz).
    assert (Hs : suppressed n (masked_margin n z) x = false).
    { apply Qlt_bool_false_iff, masked_margin_monotone, Hmax, Hz. }
    rewrite Hs. reflexivity.
Qed.

Lemma KWTA_keeps_the_winner_witness :
  exists n', KWTA.forward (Some 2%Z) (pop4 [-52; -50; -54; -60]) = Ok n' /\
             nth_error (ng_v n') 1 = Some (-50).
Proof.
  eexists. split; [reflexivity|].
  apply (KWTA_keeps_the_winner 2 (pop4 [-52; -50; -54; -60]) _ 1 (-50)).
  - reflexivity.
  - reflexivity.
  - intros y Hy. simpl in Hy.
    destruct Hy as [<-|[<-|[<-|[<-|[]]]]]; discriminate.
Defined.

Lemma count_le_impl {A : Type} (p q : A -> bool) (l : list A) :
  (forall x, In x l -> p x = true -> q x = true) -> (count p l <= count q l)%nat.
Proof.
  unfold count. induction l as [|a l IH]; intros H; simpl; [lia|].
  assert (IH' : (length (filter p l) <= length (filter q l))%nat).
  { apply IH. intros x Hx. apply H. right. exact Hx. }
  destruct (p a) eqn:Ep.
  - rewrite (H a (or_introl eq_refl) Ep). simpl. lia.
  - destruct (q a); simpl; lia.
Qed.

Lemma min_value_counts (k : Z) (n : NeuronGroup) (m : Q) :
  KWTA.min_value k n = Ok m ->
  (0 < k)%Z /\
  (Z.of_nat (count (fun x => Qlt_bool m (masked_margin n x)) (ng_v n)) < k)%Z /\
  (k <= Z.of_nat (count (fun x => Qle_bool m (masked_margin n x)) (ng_v n)))%Z.
Proof.
  intros Hm.
  assert (Hk : (1 <= k <= Z.of_nat (length (KWTA.will_spike_v n)))%Z).
  { unfold KWTA.min_value, topk in Hm.
    destruct (0 <=? k)%Z eqn:E0; [|discriminate].
    destruct (k <=? Z.of_nat (length (KWTA.will_spike_v n)))%Z eqn:E1; [|discriminate].
    cbn [andb bind] in Hm.
    destruct (Z.to_nat k) eqn:Ek; [discriminate|]. lia. }
  destruct (topk_min_kth_largest _ k Hk) as (t & m0 & Htop & Hmin & _ & Hgt & Hge).
  unfold KWTA.min_value in Hm. rewrite Htop in Hm. cbn [bind] in Hm.
  rewrite Hmin in Hm. injection Hm as ->.
  rewrite will_spike_v_map, count_map in Hgt, Hge. lia.
Qed.

(** X15. With a reset potential below the threshold, the KWTA step is
    idempotent: a second step on the population the first one returns
    changes nothing more. *)
Theorem KWTA_forward_idempotent (k : Z) (n n' : NeuronGroup) :
  ng_v_reset n < ng_threshold n ->
  KWTA.forward (Some k) n = Ok n' ->
  KWTA.forward (Some k) n' = Ok n'.
Proof.
  intros Hreset H.
  destruct (forward_inv k n n' H) as [[_ ->]|(_ & m & Hm & En')]; [exact H|].
  destruct (min_value_counts k n m Hm) as (Hk & Hgt & _).
  assert (Hm0 : 0 <= m).
  { apply min_value_In in Hm. rewrite will_spike_v_map in Hm.
    apply in_map_iff in Hm. destruct Hm as (z & <- & _). apply masked_margin_nonneg. }
  set (g := fun x => if suppressed n m x then ng_v_reset n else x) in En'.
  destruct (Qlt_le_dec 0 m) as [Hpos|Hzero].
  - (* some neurons are reset; they are below the threshold afterwards *)
    assert (Hrst : masked_margin n (ng_v_reset n) == 0).
    { apply masked_margin_other. apply Qle_bool_false_iff, Hreset. }
    unfold KWTA.forward. rewrite will_spike_count.
    destruct (Z.of_nat (count (candidate n') (ng_v n')) <=? k)%Z eqn:E;
      [reflexivity|].
    destruct (KWTA.min_value k n') as [m'|] eqn:Em'.
    + cbn [bind]. rewrite reset_map.
      destruct (min_value_counts k n' m' Em') as (_ & _ & Hge').
      assert (Hle : m' <= m).
      { apply Qnot_lt_le. intros Hlt.
        assert (Hc : (count (fun x => Qle_bool m' (masked_margin n' x)) (ng_v n')
                      <= count (fun x => Qlt_bool m (masked_margin n x)) (ng_v n))%nat).
        { rewrite En'. cbn [ng_v set_v]. rewrite count_map.
          apply count_le_impl. intros x _ Hx.
          change (masked_margin (set_v n (map g (ng_v n))) (g x))
            with (masked_margin n (g x)) in Hx.
          apply Qle_bool_iff in Hx. apply Qlt_bool_iff. unfold g in Hx.
          destruct (suppressed n m x); [|lra].
          rewrite Hrst in Hx. lra. }
        lia. }
      f_equal. rewrite En' at 3. rewrite En'. cbn [ng_v set_v ng_v_reset].
      unfold set_v. cbn [ng_size ng_v ng_spikes ng_I ng_trace ng_v_rest ng_v_reset
        ng_tau ng_R ng_threshold]. f_equal.
      rewrite map_map. apply map_ext. intros x.
      change (suppressed (mkNeuronGroup (ng_size n) (map g (ng_v n)) (ng_spikes n)
                (ng_I n) (ng_trace n) (ng_v_rest n) (ng_v_reset n) (ng_tau n)
                (ng_R n) (ng_threshold n)) m' (g x))
        with (suppressed n m' (g x)).
      unfold g. destruct (suppressed n m x) eqn:Es.
      * destruct (suppressed n m' (ng_v_reset n)); reflexivity.
      * apply Qlt_bool_false_iff in Es.
        assert (Es' : suppressed n m' x = false).
        { apply Qlt_bool_false_iff. lra. }
        rewrite Es'. reflexivity.
    + exfalso.
      destruct (topk_min_kth_largest (KWTA.will_spike_v n') k)
        as (t & m0 & Htop & Hmin & _).
      { rewrite will_spike_v_map, length_map.
        pose proof (count_le_length (candidate n') (ng_v n')). lia. }
      unfold KWTA.min_value in Em'. rewrite Htop in Em'. cbn [bind] in Em'.
      congruence.
  - (* the k-th largest margin is zero: nothing was reset *)
    assert (E : n' = n).
    { rewrite En'. destruct n as [sz v sp c tr vr vs ta r th].
      unfold set_v. cbn. f_equal. rewrite <- (map_id v) at 2.
      apply map_ext. intros x. unfold g.
      assert (Es : suppressed (mkNeuronGroup sz v sp c tr vr vs ta r th) m x = false).
      { apply Qlt_bool_false_iff.
        apply (Qle_trans _ 0); [exact Hzero | apply masked_margin_nonneg]. }
      rewrite Es. reflexivity. }
    rewrite E. rewrite E in H. exact H.
Qed.

Lemma KWTA_forward_idempotent_witness :
  KWTA.forward (Some 2%Z) (pop4 [-50; -52; -65; -65]) = Ok (pop4 [-50; -52; -65; -65]).
Proof.
  apply (KWTA_forward_idempotent 2 (pop4 [-50; -52; -54; -60])); reflexivity.
Defined.

(** ** The stimulus generator, further *)

Lemma Forall2_map2_same {A B C D : Type} (R : C -> D -> Prop)
      (f : A -> B -> C) (g : A -> B -> D) (a : list A) (b : list B) :
  (forall x y, In x a -> In y b -> R (f x y) (g x y)) ->
  Forall2 R (map2 f a b) (map2 g a b).
Proof.
  revert b. induction a as [|x a IH]; intros [|y b] H; simpl; constructor.
  - apply H; left; reflexivity.
  - apply IH. intros x' y' Hx Hy. apply H; right; assumption.
Qed.

Lemma Forall2_map2_swap {A B C D : Type} (R : C -> D -> Prop)
      (f : A -> B -> C) (g : B -> A -> D) (a : list A) (b : list B) :
  (forall x y, In x a -> In y b -> R (f x y) (g y x)) ->
  Forall2 R (map2 f a b) (map2 g b a).
Proof.
  revert b. induction a as [|x a IH]; intros [|y b] H; simpl; constructor.
  - apply H; left; reflexivity.
  - apply IH. intros x' y' Hx Hy. apply H; right; assumption.
Qed.

Lemma Forall_map2 {A B C : Type} (P : C -> Prop) (f : A -> B -> C)
      (a : list A) (b : list B) :
  (forall x y, In x a -> In y b -> P (f x y)) -> Forall P (map2 f a b).
Proof.
  revert b. induction a as [|x a IH]; intros [|y b] H; simpl; constructor.
  - apply H; left; reflexivity.
  - apply IH. intros x' y' Hx Hy. apply H; right; assumption.
Qed.

Lemma Forall_tile {A : Type} (P : A -> Prop) (t : list A) (times : nat) :
  Forall P t -> Forall P (tile t times).
Proof.
  intros H. unfold tile. induction times as [|k IH]; simpl; [constructor|].
  apply Forall_app. split; assumption.
Qed.

Lemma Forall_repeat {A : Type} (P : A -> Prop) (a : A) (k : nat) :
  P a -> Forall P (repeat a k).
Proof.
  intros H. apply Forall_forall. intros x Hx. apply repeat_spec in Hx. subst. exact H.
Qed.

Section GeneratorMore.

Context {G : TorchRng}.

Lemma length_draw_row (draw : rng_state -> Q * rng_state) (n : nat) (g : rng_state) :
  length (fst (draw_row draw n g)) = n.
Proof.
  revert g. induction n as [|n IH]; intros g; simpl; [reflexivity|].
  destruct (draw g) as [x g1]. specialize (IH g1).
  destruct (draw_row draw n g1) as [r g2]. simpl in *. rewrite IH. reflexivity.
Qed.

Lemma width_draw_matrix (draw : rng_state -> Q * rng_state) (d n : nat)
      (g : rng_state) :
  Forall (fun r => length r = n) (fst (draw_matrix draw d n g)).
Proof.
  revert g. induction d as [|d IH]; intros g; simpl; [constructor|].
  pose proof (length_draw_row draw n g) as Hr.
  destruct (draw_row draw n g) as [r g1]. specialize (IH g1).
  destruct (draw_matrix draw d n g1) as [m g2]. simpl in *.
  constructor; assumption.
Qed.

(** What [set_signals] stores, in terms of the two tensors it draws. *)
Lemma set_signals_draws (self : InputGenerator) (sd n : nat) (seed : Z) :
  exists (u r : matrix) (g' : rng_state),
    length u = sd /\ length r = sd /\
    Forall (fun row => length row = n) u /\
    Forall (fun row => length row = n) r /\
    set_signals self sd n seed =
      (mkInputGenerator (ig_mean self) (ig_std self) (ig_threshold self)
         (Some (map2 (map2 (fun (b : bool) x => b2q b * x))
                     (map (map (fun x => Qlt_bool (ig_threshold self) x)) u) r,
                map2 (map2 (fun (b : bool) x => b2q (negb b) * x))
                     (map (map (fun x => Qlt_bool (ig_threshold self) x)) u) r))
         (ig_random_signal_no self) (ig_signal_orders self), g') /\
    get_random_input self n sd seed =
      (map2 (map2 (fun x (b : bool) => x * b2q b)) r
            (map (map (fun x => Qlt_bool (ig_threshold self) x)) u), g').
Proof.
  unfold set_signals, get_random_input, rand, normal.
  pose proof (length_draw_matrix rand1 sd n (manual_seed seed)) as Hu.
  pose proof (width_draw_matrix rand1 sd n (manual_seed seed)) as Hwu.
  destruct (draw_matrix rand1 sd n (manual_seed seed)) as [u g1].
  pose proof (length_draw_matrix (normal1 (ig_mean self) (ig_std self)) sd n g1) as Hr.
  pose proof (width_draw_matrix (normal1 (ig_mean self) (ig_std self)) sd n g1) as Hwr.
  destruct (draw_matrix (normal1 (ig_mean self) (ig_std self)) sd n g1) as [r g2].
  simpl in Hu, Hr, Hwu, Hwr. exists u, r, g2. repeat split; assumption.
Qed.

Lemma In_width (n : nat) (m : matrix) (row : vec) :
  Forall (fun r => length r = n) m -> In row m -> length row = n.
Proof. intros H Hin. rewrite Forall_forall in H. apply H, Hin. Qed.

Lemma set_signals_shapes (self : InputGenerator) (sd n : nat) (seed : Z) :
  exists s0 s1,
    ig_signals (fst (set_signals self sd n seed)) = Some (s0, s1) /\
    length s0 = sd /\ length s1 = sd /\
    Forall (fun row => length row = n) s0 /\
    Forall (fun row => length row = n) s1 /\
    Forall2 (Forall2 (fun a b => a == 0 \/ b == 0)) s0 s1.
Proof.
  destruct (set_signals_draws self sd n seed)
    as (u & r & g' & Hu & Hr & Hwu & Hwr & E & _).
  rewrite E. cbn [fst ig_signals]. eexists _, _. split; [reflexivity|].
  assert (Hrow : forall (f : bool -> Q -> Q) bs row,
             In bs (map (map (fun x => Qlt_bool (ig_threshold self) x)) u) ->
             In row r -> length (map2 f bs row) = n).
  { intros f bs row Hbs Hrow. rewrite length_map2.
    apply in_map_iff in Hbs. destruct Hbs as (ur & <- & Hur).
    rewrite length_map, (In_width n u ur Hwu Hur), (In_width n r row Hwr Hrow).
    apply Nat.min_id. }
  unfold matrix, vec in *.
  split; [rewrite length_map2, length_map; lia|].
  split; [rewrite length_map2, length_map; lia|].
  split; [apply Forall_map2; intros; apply Hrow; assumption|].
  split; [apply Forall_map2; intros; apply Hrow; assumption|].
  apply Forall2_map2_same. intros bs row _ _.
  apply Forall2_map2_same. intros b x _ _.
  destruct b; simpl; [right | left]; ring.
Qed.

(** X16. The two signals that [set_signals] stores have the shape
    [signal_duration x population_size] and exclude each other: at every
    entry at least one of the two is zero. *)
Theorem set_signals_exclusive (self : InputGenerator) (sd n : nat) (seed : Z) :
  exists s0 s1,
    ig_signals (fst (set_signals self sd n seed)) = Some (s0, s1) /\
    length s0 = sd /\ length s1 = sd /\
    Forall (fun row => length row = n) s0 /\
    Forall (fun row => length row = n) s1 /\
    Forall2 (Forall2 (fun a b => a == 0 \/ b == 0)) s0 s1.
Proof. apply set_signals_shapes. Qed.

(** X17. For the same seed and shape, [get_random_input] returns the
    class-0 signal of [set_signals], entry by entry, and leaves the random
    generator in the same state. *)
Theorem get_random_input_is_class0 (self : InputGenerator) (sd n : nat) (seed : Z) :
  exists s0 s1,
    ig_signals (fst (set_signals self sd n seed)) = Some (s0, s1) /\
    Forall2 (Forall2 Qeq) (fst (get_random_input self n sd seed)) s0 /\
    snd (get_random_input self n sd seed) = snd (set_signals self sd n seed).
Proof.
  destruct (set_signals_draws self sd n seed)
    as (u & r & g' & _ & _ & _ & _ & E & E').
  rewrite E, E'. cbn [fst snd ig_signals]. eexists _, _.
  split; [reflexivity|]. split; [|reflexivity].
  apply Forall2_map2_swap. intros row bs _ _.
  apply Forall2_map2_swap. intros x b _ _. ring.
Qed.

Lemma width_episode_input (rep rd n : nat) (s0 s1 : matrix) (c : bool) :
  Forall (fun r => length r = n) s0 -> Forall (fun r => length r = n) s1 ->
  Forall (fun r => length r = n) (episode_input (s0, s1) rep rd n c).
Proof.
  intros H0 H1. unfold episode_input, get_signal_over_iter, zeros2.
  assert (Hz : forall k, Forall (fun r : vec => length r = n) (repeat (zeros n) k)).
  { intros k. apply Forall_repeat. apply repeat_length. }
  apply Forall_app. split; [|apply Hz].
  apply Forall_tile, Forall_app. split; [|apply Hz].
  destruct c; assumption.
Qed.

(** [get_random_signals] in terms of what [set_signals] draws for the same
    object and seed. *)
Lemma get_random_signals_full (self : InputGenerator) (g : rng_state)
      (iter sd rep rd n : nat) (seed : Z) :
  exists s0 s1 cs g',
    ig_signals (fst (set_signals self sd n seed)) = Some (s0, s1) /\
    length cs = iter /\
    get_random_signals self g iter sd rep rd n seed =
      Ok (episodes_input (s0, s1) rep rd n cs,
          mkInputGenerator (ig_mean self) (ig_std self) (ig_threshold self)
            (Some (s0, s1)) (episodes_labels sd rep rd cs) cs,
          g').
Proof.
  destruct (set_signals_spec self sd n seed) as (s0 & s1 & g1 & E & H0 & H1 & Hset).
  destruct (loop_spec sd rep rd n s0 s1 H0 H1 iter [] g1
              (ig_mean self) (ig_std self) (ig_threshold self))
    as (cs & g' & Hlen & Hloop).
  exists s0, s1, cs, g'. rewrite E. split; [reflexivity|]. split; [exact Hlen|].
  unfold get_random_signals.
  rewrite (Hset (mkInputGenerator (ig_mean self) (ig_std self) (ig_threshold self)
                   (ig_signals self) (ig_random_signal_no self) [])
             eq_refl eq_refl eq_refl).
  cbn [ig_mean ig_std ig_threshold ig_signals ig_random_signal_no ig_signal_orders].
  simpl in Hloop.
  replace (((sd + rd) * rep + rd) * iter)%nat
    with (iter * ((sd + rd) * rep + rd))%nat by lia.
  rewrite Hloop. reflexivity.
Qed.

(** X18. The shape of what [get_random_signals] produces when it returns:
    the matrix has [iter * ((signal_duration + rest_duration) *
    signal_repeat + rest_duration)] rows of [population_size] entries
    each, the label vector has one label per row, and there is one chosen
    class per episode. *)
Theorem get_random_signals_shape (self self' : InputGenerator) (g g' : rng_state)
        (input : matrix) (iter sd rep rd n : nat) (seed : Z) :
  get_random_signals self g iter sd rep rd n seed = Ok (input, self', g') ->
  length input = (iter * ((sd + rd) * rep + rd))%nat /\
  Forall (fun row => length row = n) input /\
  length (ig_random_signal_no self') = length input /\
  length (ig_signal_orders self') = iter.
Proof.
  intros H.
  destruct (get_random_signals_full self g iter sd rep rd n seed)
    as (s0 & s1 & cs & g1 & Esig & Hlen & Erun).
  destruct (set_signals_shapes self sd n seed)
    as (t0 & t1 & Esig' & H0 & H1 & Hw0 & Hw1 & _).
  rewrite Esig in Esig'. injection Esig' as <- <-.
  rewrite Erun in H. injection H as <- <- <-.
  cbn [ig_random_signal_no ig_signal_orders].
  rewrite (length_episodes_input sd rep rd n s0 s1 H0 H1),
          (length_episodes_labels sd rep rd), Hlen.
  repeat split.
  unfold episodes_input. clear Erun Hlen.
  induction cs as [|c cs IH]; simpl; [constructor|].
  apply Forall_app. split; [|exact IH].
  apply width_episode_input; assumption.
Qed.

(** X19. What [get_random_signals] produces, episode by episode: for the
    two signals that [set_signals] draws from the seed and the list of
    chosen classes it leaves in [signal_orders], the matrix is, for each
    episode in order, [signal_repeat] times the signal of the episode's
    class followed by a rest of zeros, and one more rest; the label vector
    carries the episode's class over each signal and [-1] over each
    rest. *)
Theorem get_random_signals_episodes (self self' : InputGenerator)
        (g g' : rng_state) (input : matrix) (iter sd rep rd n : nat) (seed : Z) :
  get_random_signals self g iter sd rep rd n seed = Ok (input, self', g') ->
  exists s0 s1,
    ig_signals (fst (set_signals self sd n seed)) = Some (s0, s1) /\
    ig_signals self' = Some (s0, s1) /\
    input =
      concat (map (fun c : bool =>
                     tile ((if c then s1 else s0) ++ zeros2 rd n) rep ++ zeros2 rd n)
                  (ig_signal_orders self')) /\
    ig_random_signal_no self' =
      concat (map (fun c : bool =>
                     tile (repeat (1 * b2q c) sd ++ repeat (1 * -1) rd) rep
                     ++ repeat (1 * -1) rd)
                  (ig_signal_orders self')).
Proof.
  intros H.
  destruct (get_random_signals_full self g iter sd rep rd n seed)
    as (s0 & s1 & cs & g1 & Esig & _ & Erun).
  rewrite Erun in H. injection H as <- <- <-.
  exists s0, s1. split; [exact Esig|]. split; [reflexivity|].
  cbn [ig_signal_orders ig_random_signal_no]. split; [reflexivity|].
  unfold episodes_labels. f_equal. apply map_ext. intros c.
  unfold get_signal_no_over_iter, ones. rewrite !map_repeat. reflexivity.
Qed.

End GeneratorMore.

Lemma get_random_signals_shape_witness :
  exists input self' g',
    get_random_signals (G := toy_rng) (__init__ 0 1 (1 # 2)) 5%Z 2 1 2 1 3 42 =
      Ok (input, self', g') /\
    length input = 10%nat /\
    Forall (fun row => length row = 3%nat) input.
Proof.
  assert (H : exists r, get_random_signals (G := toy_rng) (__init__ 0 1 (1 # 2))
                          5%Z 2 1 2 1 3 42 = Ok r) by (eexists; reflexivity).
  destruct H as ([[input self'] g'] & Hrun).
  destruct (get_random_signals_shape (G := toy_rng) _ _ _ _ _ _ _ _ _ _ _ Hrun)
    as (Hlen & Hw & _).
  exists input, self', g'.
  split; [exact Hrun|]. split; [exact Hlen | exact Hw].
Defined.

Lemma get_random_signals_episodes_witness :
  exists input self' g' s0 s1,
    get_random_signals (G := toy_rng) (__init__ 0 1 (1 # 2)) 5%Z 2 1 2 1 3 42 =
      Ok (input, self', g') /\
    ig_signals self' = Some (s0, s1).
Proof.
  assert (H : exists r, get_random_signals (G := toy_rng) (__init__ 0 1 (1 # 2))
                          5%Z 2 1 2 1 3 42 = Ok r) by (eexists; reflexivity).
  destruct H as ([[input self'] g'] & Hrun).
  destruct (get_random_signals_episodes (G := toy_rng) _ _ _ _ _ _ _ _ _ _ _ Hrun)
    as (s0 & s1 & _ & Hs & _).
  exists input, self', g', s0, s1. auto.
Defined.

(** ** Simulator *)

Lemma py_index_cases {A : Type} (t : list A) (z : Z) :
  (in_range (length t) z /\ exists a, py_index t z = Ok a /\ In a t) \/
  (~ in_range (length t) z /\ py_index t z = Raise IndexError).
Proof.
  unfold in_range, py_index.
  set (pos := if (z <? 0)%Z then (Z.of_nat (length t) + z)%Z else z).
  destruct ((0 <=? pos) && (pos <? Z.of_nat (length t)))%Z%bool eqn:E.
  - left. assert (Hr : (- Z.of_nat (length t) <= z < Z.of_nat (length t))%Z).
    { unfold pos in E. destruct (z <? 0)%Z eqn:Ez; lia. }
    split; [exact Hr|].
    destruct (nth_error t (Z.to_nat pos)) as [a|] eqn:En.
    + exists a. split; [reflexivity | apply (nth_error_In _ _ En)].
    + apply nth_error_None in En. lia.
  - right. split; [|reflexivity].
    intros Hr. unfold pos in E. destruct (z <? 0)%Z eqn:Ez; lia.
Qed.

Section SimulatorFacts.

Context {rule_class rule_params trace_kwargs : Type}.

Lemma add_coonections_cases (self : @Simulator rule_class rule_params trace_kwargs)
      (srcs dsts : list nat) (maps : list (@connection rule_class rule_params))
      (tag : channel) :
  (indices_ok srcs dsts maps /\
   exists gs, add_coonections self srcs dsts maps tag = Ok gs /\
              Forall2 (built_from self srcs dsts tag) maps gs) \/
  (~ indices_ok srcs dsts maps /\
   add_coonections self srcs dsts maps tag = Raise IndexError).
Proof.
  induction maps as [|c maps IH]; simpl.
  - left. split; [constructor|]. exists []. split; [reflexivity | constructor].
  - destruct (py_index_cases srcs (conn_src c)) as [(Hs & a & Ea & Ia)|(Hs & Ea)].
    2:{ right. rewrite Ea. split; [|reflexivity].
        intros H. inversion H as [|? ? [Hc _] _]; subst. exact (Hs Hc). }
    destruct (py_index_cases dsts (conn_dst c)) as [(Hd & b & Eb & Ib)|(Hd & Eb)].
    2:{ right. rewrite Ea, Eb. split; [|reflexivity].
        intros H. inversion H as [|? ? [_ Hc] _]; subst. exact (Hd Hc). }
    rewrite Ea, Eb. cbn [bind].
    destruct IH as [(Hok & gs & E & HF)|(Hno & E)].
    + left. split; [constructor; [split|]; assumption|].
      rewrite E. cbn [bind]. eexists. split; [reflexivity|].
      constructor; [|exact HF].
      unfold built_from, behaviors_of.
      destruct (conn_learning_rule c); cbn; repeat split; assumption.
    + right. rewrite E. split; [|reflexivity].
      intros H. inversion H; subst. apply Hno. assumption.
Qed.

Lemma add_coonections_inv (self : @Simulator rule_class rule_params trace_kwargs)
      (srcs dsts : list nat) (maps : list (@connection rule_class rule_params))
      (tag : channel) (gs : list (@group rule_class rule_params trace_kwargs)) :
  add_coonections self srcs dsts maps tag = Ok gs ->
  Forall2 (built_from self srcs dsts tag) maps gs.
Proof.
  intros H.
  destruct (add_coonections_cases self srcs dsts maps tag)
    as [(_ & gs' & E & HF)|(_ & E)]; congruence.
Qed.

(** X20. The groups that [set_coonections] creates: one per connection, in
    the order inhibitory to inhibitory, excitatory to excitatory,
    excitatory to inhibitory, inhibitory to excitatory, each group
    answering its connection. The tag follows the source: a group tagged
    [GABA] has an inhibitory source and one tagged [GLUTAMATE] an
    excitatory source. A connection without a learning rule gives a group
    without behaviour; one with a rule gives the trace, the rule and the
    clipper under the keys 1, 2 and 3. *)
Theorem set_coonections_groups (self : @Simulator rule_class rule_params trace_kwargs)
        (gs : list (@group rule_class rule_params trace_kwargs)) :
  set_coonections self = Ok gs ->
  let cs := sim_connections self in
  let exc := excitatory_pops self in
  let inh := inhibitory_pops self in
  exists g1 g2 g3 g4,
    gs = g1 ++ g2 ++ g3 ++ g4 /\
    Forall2 (built_from self inh inh GABA) (same_inh cs) g1 /\
    Forall2 (built_from self exc exc GLUTAMATE) (same_exc cs) g2 /\
    Forall2 (built_from self exc inh GLUTAMATE) (different_exc_inh cs) g3 /\
    Forall2 (built_from self inh exc GABA) (different_inh_exc cs) g4 /\
    length gs = (length (same_inh cs) + length (same_exc cs) +
                 length (different_exc_inh cs) + length (different_inh_exc cs))%nat /\
    Forall (fun g => match g_tag g with
                     | GABA => In (g_src g) inh
                     | GLUTAMATE => In (g_src g) exc
                     end) gs.
Proof.
  intros H cs exc inh. unfold set_coonections in H. fold cs exc inh in H.
  destruct (add_coonections self inh inh (same_inh cs) GABA) as [g1|] eqn:E1;
    [|discriminate]. cbn [bind] in H.
  destruct (add_coonections self exc exc (same_exc cs) GLUTAMATE) as [g2|] eqn:E2;
    [|discriminate]. cbn [bind] in H.
  destruct (add_coonections self exc inh (different_exc_inh cs) GLUTAMATE)
    as [g3|] eqn:E3; [|discriminate]. cbn [bind] in H.
  destruct (add_coonections self inh exc (different_inh_exc cs) GABA)
    as [g4|] eqn:E4; [|discriminate]. cbn [bind] in H.
  injection H as <-.
  apply add_coonections_inv in E1, E2, E3, E4.
  exists g1, g2, g3, g4. split; [reflexivity|].
  repeat (split; [assumption|]). split.
  - rewrite !length_app.
    rewrite (Forall2_length E1), (Forall2_length E2),
            (Forall2_length E3), (Forall2_length E4). lia.
  - assert (Htag : forall srcs dsts tag maps l,
               Forall2 (built_from self srcs dsts tag) maps l ->
               Forall (fun g => g_tag g = tag /\ In (g_src g) srcs) l).
    { intros srcs dsts tag maps l HF.
      induction HF as [|c g maps l (_ & _ & Hi & _ & Ht & _) _ IH];
        constructor; auto. }
    repeat (apply Forall_app; split);
      [ eapply Forall_impl; [|exact (Htag _ _ _ _ _ E1)]
      | eapply Forall_impl; [|exact (Htag _ _ _ _ _ E2)]
      | eapply Forall_impl; [|exact (Htag _ _ _ _ _ E3)]
      | eapply Forall_impl; [|exact (Htag _ _ _ _ _ E4)] ];
      cbv beta; intros g [-> Hin]; exact Hin.
Qed.

(** X21. [set_coonections] returns exactly when every connection names its
    source and its destination by an index of the list it is looked up
    in, counting from the end when negative; otherwise it raises an index
    error. *)
Theorem set_coonections_outcome (self : @Simulator rule_class rule_params trace_kwargs) :
  let cs := sim_connections self in
  let exc := excitatory_pops self in
  let inh := inhibitory_pops self in
  let all_ok := indices_ok inh inh (same_inh cs) /\
                indices_ok exc exc (same_exc cs) /\
                indices_ok exc inh (different_exc_inh cs) /\
                indices_ok inh exc (different_inh_exc cs) in
  (all_ok -> exists gs, set_coonections self = Ok gs) /\
  (~ all_ok -> set_coonections self = Raise IndexError).
Proof.
  intros cs exc inh all_ok. unfold set_coonections. fold cs exc inh.
  destruct (add_coonections_cases self inh inh (same_inh cs) GABA)
    as [(H1 & g1 & E1 & _)|(H1 & E1)]; rewrite E1; cbn [bind];
    [|split; [intros (H & _); contradiction | reflexivity]].
  destruct (add_coonections_cases self exc exc (same_exc cs) GLUTAMATE)
    as [(H2 & g2 & E2 & _)|(H2 & E2)]; rewrite E2; cbn [bind];
    [|split; [intros (_ & H & _); contradiction | reflexivity]].
  destruct (add_coonections_cases self exc inh (different_exc_inh cs) GLUTAMATE)
    as [(H3 & g3 & E3 & _)|(H3 & E3)]; rewrite E3; cbn [bind];
    [|split; [intros (_ & _ & H & _); contradiction | reflexivity]].
  destruct (add_coonections_cases self inh exc (different_inh_exc cs) GABA)
    as [(H4 & g4 & E4 & _)|(H4 & E4)]; rewrite E4; cbn [bind];
    [|split; [intros (_ & _ & _ & H); contradiction | reflexivity]].
  split; [eauto|]. intros Hno. exfalso. apply Hno. unfold all_ok. auto.
Qed.

End SimulatorFacts.

Lemma set_coonections_groups_witness :
  exists gs, set_coonections sample_simulator = Ok gs /\ length gs = 3%nat.
Proof.
  eexists. split; [reflexivity|].
  destruct (set_coonections_groups sample_simulator _ eq_refl)
    as (g1 & g2 & g3 & g4 & _ & _ & _ & _ & _ & Hlen & _).
  exact Hlen.
Defined.

Lemma set_coonections_outcome_witness :
  (exists gs, set_coonections sample_simulator = Ok gs) /\
  set_coonections broken_simulator = Raise IndexError.
Proof.
  split.
  - apply (set_coonections_outcome sample_simulator).
    unfold indices_ok, in_range. cbn.
    repeat split; repeat (apply Forall_cons; [cbn; lia|]); apply Forall_nil.
  - apply (set_coonections_outcome broken_simulator).
    unfold indices_ok, in_range. cbn. intros (_ & H & _).
    inversion H as [|? ? [Hs _] _]; subst. cbn in Hs. lia.
Defined.
